(** * Session lifecycle of the MCP HTTP bridge (lib/server.js)

    A shallow embedding of the client registry and of the REST handlers that
    start, restart, call and delete MCP clients, together with the properties
    of the session lifecycle that the design document states about them.

    The registry [clients] is the module-level [Map] of the source.  The
    protocol client, the stdio transport, the default environment, the clock
    and the timer are outside the program: they are gathered in a record
    [Peer] that every handler takes as an argument, and every external call
    is written to a log kept in the state. *)

From stdpp Require Import base option list sorting strings pretty gmap.

Set Warnings "-register-all".

(** ** JSON values and [json-stable-stringify] *)

Module Json.

(** Values that [express.json()] can hand to a handler.  An object is the
    list of its own properties in enumeration order; numbers are restricted
    to integers. *)
Inductive json : Type :=
  | JNull
  | JBool (b : bool)
  | JNum (n : Z)
  | JStr (s : string)
  | JArr (items : list json)
  | JObj (props : list (string * json)).

Definition dquote : Ascii.ascii := Ascii.ascii_of_nat 34.
Definition backslash : Ascii.ascii := Ascii.ascii_of_nat 92.

Definition hex_digit (n : nat) : Ascii.ascii :=
  if decide (n < 10) then Ascii.ascii_of_nat (48 + n)
  else Ascii.ascii_of_nat (87 + n).

(** One character of a string literal, as [JSON.stringify] writes it. *)
Definition escape_char (c : Ascii.ascii) : string :=
  let n := Ascii.nat_of_ascii c in
  if decide (n = 34) then String backslash (String dquote "")
  else if decide (n = 92) then String backslash (String backslash "")
  else if decide (n = 8) then String backslash "b"
  else if decide (n = 9) then String backslash "t"
  else if decide (n = 10) then String backslash "n"
  else if decide (n = 12) then String backslash "f"
  else if decide (n = 13) then String backslash "r"
  else if decide (n < 32) then
    String backslash ("u00" +:+ String (hex_digit (n / 16)) (String (hex_digit (n mod 16)) ""))
  else String c "".

Fixpoint escape (s : string) : string :=
  match s with
  | EmptyString => ""
  | String c s' => escape_char c +:+ escape s'
  end.

(** [JSON.stringify(s)] for a string [s]. *)
Definition quote (s : string) : string :=
  String dquote (escape s +:+ String dquote "").

(** [xs.join(sep)] *)
Definition join (sep : string) (xs : list string) : string :=
  String.concat sep xs.

(** The order of [Object.keys(node).sort()]: properties compared by key. *)
Definition key_le {A} (p q : string * A) : Prop := String.le p.1 q.1.

#[global] Instance key_le_dec {A} : RelDecision (@key_le A).
Proof. intros p q. unfold key_le. apply _. Defined.

Definition sort_keys {A} (props : list (string * A)) : list (string * A) :=
  merge_sort key_le props.

Definition render_prop (p : string * string) : string :=
  quote p.1 +:+ ":" +:+ p.2.

(** [stringify(node)] of json-stable-stringify with its default options: the
    members of an array in order, the properties of an object by sorted key.
    The library sorts the keys and then renders each value; here each value
    is rendered and the rendered properties are sorted by key, which is the
    same string. *)
Fixpoint stringify (j : json) : string :=
  match j with
  | JNull => "null"
  | JBool true => "true"
  | JBool false => "false"
  | JNum n => pretty n
  | JStr s => quote s
  | JArr items => "[" +:+ join "," (map stringify items) +:+ "]"
  | JObj props =>
      "{" +:+ join ","
        (map render_prop
           (sort_keys (map (fun kv => let '(k, v) := kv in (k, stringify v)) props)))
        +:+ "}"
  end.

End Json.
Import Json.

(** ** The bridge: registry, external world and handlers *)

Module Bridge.

(** *** Session configs *)

(** One value of [mcpServers], in the format of a Claude Desktop config: the
    three properties the bridge reads, each of them possibly missing from
    the object.  When present, [command] is a string, [args] an array of
    strings and [env] an object whose values are strings. *)
Record Config : Type := mkConfig {
  cfg_command : option string;
  cfg_args : option (list string);
  cfg_env : option (list (string * string));
}.

Definition opt_prop (k : string) (v : option json) : list (string * json) :=
  match v with Some j => [(k, j)] | None => [] end.

Definition env_json (env : list (string * string)) : json :=
  JObj (map (fun kv => (kv.1, JStr kv.2)) env).

(** The config as the JSON object it was parsed from. *)
Definition config_json (c : Config) : json :=
  JObj (opt_prop "command" (JStr <$> cfg_command c)
        ++ opt_prop "args" ((fun a => JArr (map JStr a)) <$> cfg_args c)
        ++ opt_prop "env" (env_json <$> cfg_env c)).

(** [stringify(stored) !== stringify(config)] in the start handler. *)
Definition hasConfigChanged (stored config : Config) : bool :=
  negb (String.eqb (stringify (config_json stored)) (stringify (config_json config))).

(** *** Objects of the SDK *)

(** A client object is identified by the order of its construction. *)
Definition handle := nat.

(** The parameters given to [new StdioClientTransport]. *)
Record Transport : Type := mkTransport {
  tr_command : string;
  tr_args : list string;
  tr_env : option (list (string * string));
}.

(** A value of the [clients] map. *)
Record ClientEntry : Type := mkEntry {
  id : string;
  client : handle;
  transport : Transport;
  command : string;
  args : list string;
  env : list (string * string);
  config : Config;
  createdAt : N;
}.

(** Calls made on the SDK, in program order. *)
Inductive Call : Type :=
  | CConnect (h : handle) (t : Transport)
  | CClose (h : handle)
  | CCallTool (h : handle) (name : string) (arguments : json).

(** How the promise of [client.connect(transport)] settles, with the time in
    milliseconds since the connect was started. *)
Inductive Settle : Type :=
  | Resolves (at_ms : N)
  | Rejects (at_ms : N) (message : string)
  | Never.

(** What lies outside the program:
    - the object that [getDefaultEnvironment()] of the SDK returns;
    - how the connect of each client settles;
    - by how many milliseconds the timer raced against that connect fires
      after its delay ([setTimeout] never fires early);
    - the clock, read after the calls made so far;
    - whether an awaited [close()] throws, and with which message;
    - what [callTool] returns, or the message of what it throws. *)
Record Peer : Type := mkPeer {
  getDefaultEnvironment : list (string * string);
  connect_settle : handle -> Settle;
  timer_late : handle -> N;
  now : list Call -> N;
  close_throws : list Call -> handle -> option string;
  callTool_result : list Call -> handle -> string -> json -> string + json;
}.

(** *** State *)

(** The registry, the number of client objects constructed so far, and the
    calls made on the SDK so far. *)
Record World : Type := mkWorld {
  clients : gmap string ClientEntry;
  next_client : handle;
  calls : list Call;
}.

Definition record_call (w : World) (c : Call) : World :=
  mkWorld (clients w) (next_client w) (calls w ++ [c]).

Definition set_clients (w : World) (m : gmap string ClientEntry) : World :=
  mkWorld m (next_client w) (calls w).

(** *** startClient *)

(** [{ ...base, ...over }] on objects kept as property lists: a key of
    [over] that [base] has keeps its place and takes the new value, a new key
    goes to the end. *)
Fixpoint set_prop (k v : string) (o : list (string * string)) : list (string * string) :=
  match o with
  | [] => [(k, v)]
  | (k', v') :: o' => if decide (k' = k) then (k, v) :: o' else (k', v') :: set_prop k v o'
  end.

Definition spread (base over : list (string * string)) : list (string * string) :=
  foldl (fun o kv => set_prop kv.1 kv.2 o) base over.

Fixpoint get_prop (k : string) (o : list (string * string)) : option string :=
  match o with
  | [] => None
  | (k', v) :: o' => if decide (k' = k) then Some v else get_prop k o'
  end.

(** [!command] *)
Definition falsy (command : option string) : bool :=
  match command with
  | None => true
  | Some s => if decide (s = "") then true else false
  end.

(** The [env] property of the transport parameters. *)
Definition transport_env (p : Peer) (env : list (string * string))
    : option (list (string * string)) :=
  if decide (0 < length env) then Some (spread (getDefaultEnvironment p) env)
  else None.

(** The delay of the timer that is raced against the connect. *)
Definition CONNECT_TIMEOUT_MS : N := 300000.

Definition timeout_message (elapsed : N) (clientId command : string) (args : list string)
    : string :=
  "Connection timeout after " +:+ pretty elapsed +:+ "ms. Client: " +:+ clientId
    +:+ ", Command: " +:+ command +:+ " " +:+ join " " args.

(** Outcome of [Promise.race([client.connect(transport), timeoutPromise])].
    The timer fires [timer_late] milliseconds after its delay; the connect
    wins when it settles before that. *)
Inductive Raced : Type :=
  | Connected (at_ms : N)
  | Failed (at_ms : N) (message : string).

Definition timer_fires (p : Peer) (h : handle) : N :=
  (CONNECT_TIMEOUT_MS + timer_late p h)%N.

Definition race (p : Peer) (h : handle) (clientId command : string) (args : list string)
    : Raced :=
  let fire := timer_fires p h in
  let timed_out := Failed fire (timeout_message fire clientId command args) in
  match connect_settle p h with
  | Resolves t => if decide (t < fire)%N then Connected t else timed_out
  | Rejects t m => if decide (t < fire)%N then Failed t m else timed_out
  | Never => timed_out
  end.

(** A call of [startClient] that is suspended at its [await]. *)
Record Pending : Type := mkPending {
  p_id : string;
  p_client : handle;
  p_transport : Transport;
  p_command : string;
  p_args : list string;
  p_env : list (string * string);
  p_config : Config;
}.

(** The value [startClient] returns. *)
Record Started : Type := mkStarted {
  s_id : string;
  s_message : string;
}.

(** [startClient] up to its [await]: the check of the command and the
    construction of the transport and of the client, whose connect is
    started.  [inl] is the message of the error thrown. *)
Definition startClient_begin (p : Peer) (w : World) (clientId : string) (config : Config)
    : World * (string + Pending) :=
  let args := default [] (cfg_args config) in
  let env := default [] (cfg_env config) in
  if falsy (cfg_command config) then (w, inl "Command is required")
  else
    let command := default "" (cfg_command config) in
    let transport := mkTransport command args (transport_env p env) in
    let h := next_client w in
    let w1 := mkWorld (clients w) (S h) (calls w) in
    (record_call w1 (CConnect h transport),
     inr (mkPending clientId h transport command args env config)).

(** [startClient] from the moment the race settles: the error is thrown
    again by the catch block, or the entry is stored. *)
Definition startClient_resume (p : Peer) (w : World) (k : Pending)
    : World * (string + Started) :=
  match race p (p_client k) (p_id k) (p_command k) (p_args k) with
  | Failed _ message => (w, inl message)
  | Connected _ =>
      let entry := mkEntry (p_id k) (p_client k) (p_transport k) (p_command k)
                     (p_args k) (p_env k) (p_config k) (now p (calls w)) in
      (set_clients w (<[p_id k := entry]> (clients w)),
       inr (mkStarted (p_id k) "MCP client started successfully"))
  end.

(** A call of [startClient] that nothing else interleaves with. *)
Definition startClient (p : Peer) (w : World) (clientId : string) (config : Config)
    : World * (string + Started) :=
  match startClient_begin p w clientId config with
  | (w1, inl message) => (w1, inl message)
  | (w1, inr k) => startClient_resume p w1 k
  end.

(** *** POST /start *)

(** One async callback of the [map] over [Object.entries(mcpServers)], as
    far as it runs before it is suspended. *)
Inductive Task : Type :=
  | TReturned
  | TThrown (serverId message : string)
  | TAwaiting (k : Pending).

(** The callback for one server up to its first suspension.  [close] is an
    async method of the SDK: it returns a promise, which the handler drops,
    so that no failure of the close reaches the callback. *)
Definition start_server_begin (p : Peer) (w : World) (serverId : string) (config : Config)
    : World * Task :=
  let start w :=
    match startClient_begin p w serverId config with
    | (w1, inl message) => (w1, TThrown serverId message)
    | (w1, inr k) => (w1, TAwaiting k)
    end in
  match clients w !! serverId with
  | Some {| client := existing; config := stored |} =>
      if hasConfigChanged stored config
      then start (record_call w (CClose existing))
      else (w, TReturned)
  | None => start w
  end.

(** [map] calls the callbacks one after the other; each runs until it is
    suspended. *)
Fixpoint start_servers_begin (p : Peer) (w : World) (servers : list (string * Config))
    : World * list Task :=
  match servers with
  | [] => (w, [])
  | (serverId, config) :: rest =>
      let '(w1, t) := start_server_begin p w serverId config in
      let '(w2, ts) := start_servers_begin p w1 rest in
      (w2, t :: ts)
  end.

Record StartError : Type := mkStartError {
  err_id : string;
  err_error : string;
}.

(** The [results] object of the handler. *)
Record Results : Type := mkResults {
  success : list Started;
  errors : list StartError;
}.

Definition failed_to_initialize (serverId message : string) : StartError :=
  mkStartError serverId ("Failed to initialize: " +:+ message).

(** The rest of a callback, run when what it awaits has settled. *)
Definition start_server_resume (p : Peer) (st : World * Results) (t : Task)
    : World * Results :=
  let '(w, r) := st in
  match t with
  | TReturned => (w, r)
  | TThrown serverId message =>
      (w, mkResults (success r) (errors r ++ [failed_to_initialize serverId message]))
  | TAwaiting k =>
      match startClient_resume p w k with
      | (w1, inr result) => (w1, mkResults (success r ++ [result]) (errors r))
      | (w1, inl message) =>
          (w1, mkResults (success r) (errors r ++ [failed_to_initialize (p_id k) message]))
      end
  end.

(** When the race of a suspended [startClient] settles. *)
Definition settles_at (p : Peer) (k : Pending) : N :=
  match race p (p_client k) (p_id k) (p_command k) (p_args k) with
  | Connected t => t
  | Failed t _ => t
  end.

Definition task_settles_at (p : Peer) (t : Task) : N :=
  match t with
  | TAwaiting k => settles_at p k
  | _ => 0%N
  end.

Definition settles_le (p : Peer) (t1 t2 : Task) : Prop :=
  (task_settles_at p t1 <= task_settles_at p t2)%N.

#[global] Instance settles_le_dec (p : Peer) : RelDecision (settles_le p).
Proof. intros t1 t2. unfold settles_le. apply _. Defined.

Definition is_awaiting (t : Task) : bool :=
  match t with TAwaiting _ => true | _ => false end.

(** The order in which the suspended callbacks are resumed: those whose
    [startClient] threw before any [await], in the order of the entries, then
    the others as their races settle.  The connects of one request are
    started in the same turn of the event loop, so the times of the races
    are compared directly. *)
Definition resume_order (p : Peer) (ts : list Task) : list Task :=
  List.filter (fun t => negb (is_awaiting t)) ts
  ++ merge_sort (settles_le p) (List.filter is_awaiting ts).

(** The JSON bodies of the answers: [{message, clients}] of a start without
    errors, [{message, success, errors}] of a start with errors, [{error}],
    [{error, details}], [{message, client}] of a restart, the result of a
    tool, [{message}]. *)
Inductive Body : Type :=
  | AllStarted (started : list Started)
  | SomeFailed (started : list Started) (failures : list StartError)
  | ErrorOnly (error : string)
  | ErrorDetails (error details : string)
  | Restarted (message : string) (started : Started)
  | ToolResult (result : json)
  | Message (message : string).

Record Response : Type := mkResponse {
  status : nat;
  body : Body;
}.

(** The handler of [POST /start]; [None] is a body without [mcpServers],
    on which [Object.entries] throws. *)
Definition post_start (p : Peer) (w : World) (mcpServers : option (list (string * Config)))
    : World * Response :=
  match mcpServers with
  | None => (w, mkResponse 500 (ErrorOnly "Internal server error"))
  | Some servers =>
      let '(w1, ts) := start_servers_begin p w servers in
      let '(w2, results) :=
        foldl (start_server_resume p) (w1, mkResults [] []) (resume_order p ts) in
      if decide (length (errors results) = 0)
      then (w2, mkResponse 201 (AllStarted (success results)))
      else (w2, mkResponse 400 (SomeFailed (success results) (errors results)))
  end.

(** *** POST /restart/:id *)

Definition not_found : Response := mkResponse 404 (ErrorOnly "Client not found").

(** [clientEntry.config || {...}]: the stored config is an object, so the
    right operand is never taken. *)
Definition post_restart (p : Peer) (w : World) (id : string) : World * Response :=
  match clients w !! id with
  | None => (w, not_found)
  | Some clientEntry =>
      let original := config clientEntry in
      let w1 := record_call w (CClose (client clientEntry)) in
      match close_throws p (calls w) (client clientEntry) with
      | Some message =>
          (w1, mkResponse 500 (ErrorDetails "Failed to restart client" message))
      | None =>
          let w2 := set_clients w1 (delete id (clients w1)) in
          match startClient p w2 id original with
          | (w3, inr result) =>
              (w3, mkResponse 200
                     (Restarted ("Client " +:+ id +:+ " restarted successfully") result))
          | (w3, inl message) =>
              (w3, mkResponse 500 (ErrorDetails "Failed to restart client" message))
          end
      end
  end.

(** *** POST /clients/:id/call_tools *)

(** JavaScript truthiness of a JSON value. *)
Definition truthy (j : json) : bool :=
  match j with
  | JNull => false
  | JBool b => b
  | JNum n => if decide (n = 0%Z) then false else true
  | JStr s => if decide (s = "") then false else true
  | JArr _ | JObj _ => true
  end.

Definition post_call_tools (p : Peer) (w : World) (id : string)
    (name : option string) (toolArgs : option json) : World * Response :=
  if falsy name then (w, mkResponse 400 (ErrorOnly "Tool name is required"))
  else
    match clients w !! id with
    | None => (w, not_found)
    | Some clientEntry =>
        let name := default "" name in
        let arguments :=
          match toolArgs with
          | Some j => if truthy j then j else JObj []
          | None => JObj []
          end in
        let w1 := record_call w (CCallTool (client clientEntry) name arguments) in
        match callTool_result p (calls w) (client clientEntry) name arguments with
        | inr result => (w1, mkResponse 200 (ToolResult result))
        | inl message => (w1, mkResponse 500 (ErrorDetails "Failed to call tool" message))
        end
    end.

(** *** DELETE /clients/:id *)

Definition delete_client (p : Peer) (w : World) (id : string) : World * Response :=
  match clients w !! id with
  | None => (w, not_found)
  | Some clientEntry =>
      let w1 := record_call w (CClose (client clientEntry)) in
      match close_throws p (calls w) (client clientEntry) with
      | Some message =>
          (w1, mkResponse 500 (ErrorDetails "Failed to delete client" message))
      | None =>
          (set_clients w1 (delete id (clients w1)),
           mkResponse 200 (Message "Client deleted successfully"))
      end
  end.

End Bridge.
Import Bridge.

(** ** Notions used in the statements *)

(** Two configs with the same command, the same arguments in the same order
    and the same environment entries in any order. *)
Definition same_env (e e' : option (list (string * string))) : Prop :=
  match e, e' with
  | Some l, Some l' => l ≡ₚ l'
  | None, None => True
  | _, _ => False
  end.

Definition same_config (c c' : Config) : Prop :=
  cfg_command c = cfg_command c' ∧ cfg_args c = cfg_args c'
  ∧ same_env (cfg_env c) (cfg_env c').

(** An object has each key once. *)
Definition keys_unique {A} (o : list (string * A)) : Prop := NoDup o.*1.

Definition env_keys_unique (c : Config) : Prop :=
  match cfg_env c with Some l => keys_unique l | None => True end.

(** The two lists of a response of [POST /start]. *)
Definition response_success (r : Response) : list Started :=
  match body r with
  | AllStarted l => l
  | SomeFailed l _ => l
  | _ => []
  end.

Definition response_errors (r : Response) : list StartError :=
  match body r with
  | SomeFailed _ l => l
  | _ => []
  end.

(** What a callback contributes to [results] once it has run to its end. *)
Definition task_result (p : Peer) (t : Task) : option (Started + StartError) :=
  match t with
  | TReturned => None
  | TThrown serverId message => Some (inr (failed_to_initialize serverId message))
  | TAwaiting k =>
      match race p (p_client k) (p_id k) (p_command k) (p_args k) with
      | Connected _ => Some (inl (mkStarted (p_id k) "MCP client started successfully"))
      | Failed _ message => Some (inr (failed_to_initialize (p_id k) message))
      end
  end.

(** The server a callback is for, when it did not return at once. *)
Definition task_id (t : Task) : option string :=
  match t with
  | TReturned => None
  | TThrown serverId _ => Some serverId
  | TAwaiting k => Some (p_id k)
  end.

Definition started_of (p : Peer) (ts : list Task) : list Started :=
  omap (fun t => match task_result p t with Some (inl s) => Some s | _ => None end) ts.

Definition failures_of (p : Peer) (ts : list Task) : list StartError :=
  omap (fun t => match task_result p t with Some (inr e) => Some e | _ => None end) ts.


(** ** Reading back what [stringify] writes *)

(** The comparison of the start handler is made on strings.  To show that
    it separates configs that differ, string literals are read back. *)

Definition hex_value (c : Ascii.ascii) : option nat :=
  let n := Ascii.nat_of_ascii c in
  if decide (48 ≤ n ≤ 57) then Some (n - 48)
  else if decide (97 ≤ n ≤ 102) then Some (n - 87)
  else None.

Definition short_escape (x : Ascii.ascii) : option Ascii.ascii :=
  let n := Ascii.nat_of_ascii x in
  if decide (n = 34) then Some dquote
  else if decide (n = 92) then Some backslash
  else if decide (n = 98) then Some (Ascii.ascii_of_nat 8)
  else if decide (n = 116) then Some (Ascii.ascii_of_nat 9)
  else if decide (n = 110) then Some (Ascii.ascii_of_nat 10)
  else if decide (n = 102) then Some (Ascii.ascii_of_nat 12)
  else if decide (n = 114) then Some (Ascii.ascii_of_nat 13)
  else None.

(** The characters up to the closing quote of a literal, unescaped, and
    what follows the literal. *)
Fixpoint read_literal (s : string) : option (string * string) :=
  match s with
  | EmptyString => None
  | String c rest =>
      if Ascii.eqb c dquote then Some (EmptyString, rest)
      else if Ascii.eqb c backslash then
        match rest with
        | String x rest1 =>
            if Ascii.eqb x (Ascii.ascii_of_nat 117) then
              match rest1 with
              | String _ (String _ (String h1 (String h2 rest2))) =>
                  match hex_value h1, hex_value h2, read_literal rest2 with
                  | Some a, Some b, Some (t, r) =>
                      Some (String (Ascii.ascii_of_nat (16 * a + b)) t, r)
                  | _, _, _ => None
                  end
              | _ => None
              end
            else
              match short_escape x, read_literal rest1 with
              | Some ch, Some (t, r) => Some (String ch t, r)
              | _, _ => None
              end
        | EmptyString => None
        end
      else
        match read_literal rest with
        | Some (t, r) => Some (String c t, r)
        | None => None
        end
  end.

(** A rendering after which any text can follow without ambiguity. *)
Definition self_delimiting {A} (g : A → string) : Prop :=
  ∀ x x' r r', g x +:+ r = g x' +:+ r' → x = x' ∧ r = r'.

Definition quoted {A} (g : A → string) : Prop :=
  ∀ x, ∃ t, g x = String dquote t.

(** One property of an object whose values are strings. *)
Definition render_entry (kv : string * string) : string :=
  quote kv.1 +:+ ":" +:+ quote kv.2.

(** The properties of a config in the order in which [stringify] writes
    them, the environment with its keys sorted. *)
Inductive Item : Type :=
  | IArgs (a : list string)
  | ICommand (s : string)
  | IEnv (sorted : list (string * string)).

Definition render_item (i : Item) : string :=
  match i with
  | IArgs a => quote "args" +:+ ":" +:+ stringify (JArr (map JStr a))
  | ICommand s => quote "command" +:+ ":" +:+ quote s
  | IEnv l => quote "env" +:+ ":" +:+ "{" +:+ join "," (map render_entry l) +:+ "}"
  end.

Definition opt_item {A} (f : A → Item) (o : option A) : list Item :=
  match o with Some x => [f x] | None => [] end.

Definition items (c : Config) : list Item :=
  opt_item IArgs (cfg_args c) ++ opt_item ICommand (cfg_command c)
  ++ opt_item (fun e => IEnv (sort_keys e)) (cfg_env c).

Definition opt_pair (k : string) (o : option string) : list (string * string) :=
  match o with Some v => [(k, v)] | None => [] end.


(** ** Sample data *)

Module Sample.

Definition cfg_a : Config :=
  mkConfig (Some "npx") (Some ["-y"; "server-a"]) (Some [("A", "1"); ("B", "2")]).

(** [cfg_a] with the environment written in the other order. *)
Definition cfg_a_reordered : Config :=
  mkConfig (Some "npx") (Some ["-y"; "server-a"]) (Some [("B", "2"); ("A", "1")]).

(** [cfg_a] with the arguments in the other order. *)
Definition cfg_b : Config :=
  mkConfig (Some "npx") (Some ["server-a"; "-y"]) (Some [("A", "1"); ("B", "2")]).

Definition cfg_plain : Config := mkConfig (Some "node") (Some ["index.js"]) None.

Definition cfg_empty_env : Config := mkConfig (Some "node") (Some ["index.js"]) (Some []).

Definition cfg_no_command : Config := mkConfig (Some "") None None.

(** A peer whose first client connects after 1.2 s, whose second client is
    refused, whose third client never answers, and on which closing the
    first client throws. *)
Definition peer : Peer :=
  mkPeer [("PATH", "/usr/bin"); ("A", "0")]
    (fun h => match h with
              | 0 => Resolves 1200
              | 1 => Rejects 50 "spawn ENOENT"
              | 2 => Never
              | _ => Resolves 10
              end)
    (fun _ => 4%N)
    (fun cs => N.of_nat (length cs))
    (fun _ h => match h with 0 => Some "transport is stuck" | _ => None end)
    (fun _ _ _ arguments => inr arguments).

(** A peer on which every connect succeeds at once and every close
    succeeds. *)
Definition calm : Peer :=
  mkPeer [("PATH", "/usr/bin")] (fun _ => Resolves 5) (fun _ => 0%N)
    (fun cs => N.of_nat (length cs)) (fun _ _ => None)
    (fun _ _ _ arguments => inr arguments).

Definition empty_world : World := mkWorld ∅ 0 [].

(** A request with three servers, the second without a command. *)
Definition batch : list (string * Config) :=
  [("a", cfg_a); ("bad", cfg_no_command); ("c", cfg_plain)].

(** The entry of ["a"] once [cfg_a] was started on [peer]. *)
Definition entry_a : ClientEntry :=
  mkEntry "a" 0
    (mkTransport "npx" ["-y"; "server-a"]
       (Some [("PATH", "/usr/bin"); ("A", "1"); ("B", "2")]))
    "npx" ["-y"; "server-a"] [("A", "1"); ("B", "2")] cfg_a 1.

(** The world after [cfg_a] was started as ["a"] on [peer]. *)
Definition world_a : World := (startClient peer empty_world "a" cfg_a).1.

End Sample.

(** ** The read handlers and the shutdown of lib/server.js *)

Module Readers.

(** One element of [result.tools]: its name and its other properties. *)
Record Tool : Type := mkTool {
  tool_name : string;
  tool_detail : json;
}.

(** How [client.listTools()] ends for each client during one request: the
    message of what it throws, or its result, whose [tools] may be
    missing. *)
Definition Lister : Type := handle → string + option (list Tool).

(** [{ id, command, args, createdAt }] *)
Record Summary : Type := mkSummary {
  sum_id : string;
  sum_command : string;
  sum_args : list string;
  sum_createdAt : N;
}.

(** An element of the answer of [GET /clients]. *)
Record Details : Type := mkDetails {
  det_summary : Summary;
  det_tools : list string;
  det_toolError : option string;
}.

Inductive ReadBody : Type :=
  | ClientList (items : list Details)
  | ClientSummary (item : Summary)
  | ToolList (tools : option (list Tool))
  | ReadError (error : string)
  | ReadErrorDetails (error details : string).

Record ReadResponse : Type := mkRead {
  read_status : nat;
  read_body : ReadBody;
}.

Definition summary (e : ClientEntry) : Summary :=
  mkSummary (id e) (command e) (args e) (createdAt e).

(** [clients.values()] and [clients.entries()]: a [Map] is iterated in the
    order in which its keys were inserted.  The registry does not record that
    order; it is given as the list [order] of the keys. *)
Definition entries (w : World) (order : list string) : list (string * ClientEntry) :=
  omap (fun k => (fun e => (k, e)) <$> clients w !! k) order.

Definition values (w : World) (order : list string) : list ClientEntry :=
  (entries w order).*2.

(** The callback of [GET /clients] for one entry. *)
Definition describe (listTools : Lister) (clientEntry : ClientEntry) : Details :=
  match listTools (client clientEntry) with
  | inr result =>
      mkDetails (summary clientEntry) (tool_name <$> default [] result) None
  | inl message => mkDetails (summary clientEntry) [] (Some message)
  end.

(** [GET /clients]: the clients on which [listTools] was called, in the order
    of the calls, and the answer. *)
Definition get_clients (listTools : Lister) (w : World) (order : list string)
    : list handle * ReadResponse :=
  let vs := values w order in
  (client <$> vs, mkRead 200 (ClientList (describe listTools <$> vs))).

(** [GET /clients/:id] *)
Definition get_client (w : World) (clientId : string) : ReadResponse :=
  match clients w !! clientId with
  | None => mkRead 404 (ReadError "Client not found")
  | Some clientEntry => mkRead 200 (ClientSummary (summary clientEntry))
  end.

(** [GET /clients/:id/tools] *)
Definition get_client_tools (listTools : Lister) (w : World) (clientId : string)
    : list handle * ReadResponse :=
  match clients w !! clientId with
  | None => ([], mkRead 404 (ReadError "Client not found"))
  | Some clientEntry =>
      ([client clientEntry],
       match listTools (client clientEntry) with
       | inr result => mkRead 200 (ToolList result)
       | inl message => mkRead 500 (ReadErrorDetails "Failed to get tools" message)
       end)
  end.



End Readers.
Import Readers.

(** ** Requests in sequence *)

(** The requests that write to the registry or call a tool. *)
Inductive Request : Type :=
  | PostStart (mcpServers : option (list (string * Config)))
  | PostRestart (clientId : string)
  | PostCallTools (clientId : string) (name : option string) (toolArgs : option json)
  | DeleteClient (clientId : string).

(** The route of a request. *)
Definition serve (p : Peer) (w : World) (r : Request) : World * Response :=
  match r with
  | PostStart mcpServers => post_start p w mcpServers
  | PostRestart clientId => post_restart p w clientId
  | PostCallTools clientId name toolArgs => post_call_tools p w clientId name toolArgs
  | DeleteClient clientId => delete_client p w clientId
  end.

(** Requests handled one after the other. *)
Definition serve_all (p : Peer) (w : World) (rs : list Request) : World :=
  foldl (fun w r => (serve p w r).1) w rs.

(** What holds of every entry of the registry: it is stored under its own
    id, its command, arguments and environment are those of its config, which
    has a command, its transport was made from them, and its client was
    constructed before the next one to come. *)
Definition entry_ok (w : World) (key : string) (e : ClientEntry) : Prop :=
  id e = key
  ∧ falsy (cfg_command (config e)) = false
  ∧ command e = default "" (cfg_command (config e))
  ∧ args e = default [] (cfg_args (config e))
  ∧ env e = default [] (cfg_env (config e))
  ∧ tr_command (transport e) = command e
  ∧ tr_args (transport e) = args e
  ∧ client e < next_client w.

Definition registry_ok (w : World) : Prop :=
  (∀ key e, clients w !! key = Some e → entry_ok w key e)
  ∧ (∀ key key' e e', clients w !! key = Some e → clients w !! key' = Some e' →
       client e = client e' → key = key').

(** The same for a suspended [startClient]. *)
Definition pending_ok (k : Pending) : Prop :=
  falsy (cfg_command (p_config k)) = false
  ∧ p_command k = default "" (cfg_command (p_config k))
  ∧ p_args k = default [] (cfg_args (p_config k))
  ∧ p_env k = default [] (cfg_env (p_config k))
  ∧ tr_command (p_transport k) = p_command k
  ∧ tr_args (p_transport k) = p_args k.

(** The suspended calls of [startClient] among the callbacks. *)
Definition awaiting (ts : list Task) : list Pending :=
  omap (fun t => match t with TAwaiting k => Some k | _ => None end) ts.

(** A server of a request whose callback returns at once: it is registered
    with a config that the handler takes for the submitted one. *)
Definition unchanged (w : World) (server : string * Config) : bool :=
  match clients w !! server.1 with
  | Some e => negb (hasConfigChanged (config e) server.2)
  | None => false
  end.

Definition is_returned (t : Task) : bool :=
  match t with TReturned => true | _ => false end.

(** The order of a [Map] whose keys are those of the registry. *)
Definition enumerates (w : World) (order : list string) : Prop :=
  NoDup order ∧ ∀ key, key ∈ order ↔ is_Some (clients w !! key).

(** ** Port selection and start-up *)

Module Ports.

(** A JavaScript number that is an integer or [NaN]. *)
Inductive JsNumber : Type :=
  | NaN
  | Num (n : Z).

(** The environment variables that the program reads. *)
Record Env : Type := mkEnv {
  PORT : option string;
  RENDER : option string;
  CERTFILE : option string;
  KEYFILE : option string;
}.

(** What [server.listen(port, '0.0.0.0')] does on a fresh [net] server. *)
Inductive Listen : Type :=
  | Listening
  | ErrorEvent (message : string)
  | ListenThrows (message : string).

Inductive Protocol : Type := HTTP | HTTPS.

(** The port that [start] binds: the string of the environment or a number
    found by the port finder. *)
Inductive PortValue : Type :=
  | FromEnv (s : string)
  | Found (n : JsNumber).

(** The platform under the program: [parseInt(s, 10)], the [net] module
    (given the ports tried so far), [fs.readFileSync] (the message of what
    it throws, or the contents) and the listen of the HTTP or HTTPS server
    (the message of its error, if any). *)
Record Platform : Type := mkPlatform {
  parseInt10 : string → JsNumber;
  net_listen : list JsNumber → JsNumber → Listen;
  readFileSync : string → string + string;
  server_listen : Protocol → PortValue → option string;
}.

Definition PORTS : list Z := [50880; 50881; 3000; 8080; 8000]%Z.

(** [isPortAvailable(port)]: the ports tried so far, and [true], [false] or
    the message with which the promise is rejected. *)
Definition isPortAvailable (pf : Platform) (tried : list JsNumber) (port : JsNumber)
    : list JsNumber * (string + bool) :=
  (tried ++ [port],
   match net_listen pf tried port with
   | Listening => inr true
   | ErrorEvent _ => inr false
   | ListenThrows message => inl message
   end).

(** The loop over [PORTS]; [None] is [null]. *)
Fixpoint try_ports (pf : Platform) (tried : list JsNumber) (ports : list Z)
    : list JsNumber * (string + option JsNumber) :=
  match ports with
  | [] => (tried, inr None)
  | port :: rest =>
      match isPortAvailable pf tried (Num port) with
      | (tried1, inl message) => (tried1, inl message)
      | (tried1, inr true) => (tried1, inr (Some (Num port)))
      | (tried1, inr false) => try_ports pf tried1 rest
      end
  end.

End Ports.
Import Ports.

(** [findAvailablePort] as the first part of lib/port-finder.js has it. *)
Module PortFinder.

Definition findAvailablePort (pf : Platform) (env : Env)
    : list JsNumber * (string + option JsNumber) :=
  if falsy (PORT env) then try_ports pf [] PORTS
  else
    let envPort := parseInt10 pf (default "" (PORT env)) in
    if falsy (RENDER env) then
      match isPortAvailable pf [] envPort with
      | (tried, inl message) => (tried, inl message)
      | (tried, inr true) => (tried, inr (Some envPort))
      | (tried, inr false) => try_ports pf tried PORTS
      end
    else ([], inr (Some envPort)).

End PortFinder.

(** [findAvailablePort] as the second part of lib/port-finder.js has it. *)
Module PortFinderDirect.

Definition findAvailablePort (pf : Platform) (env : Env)
    : list JsNumber * (string + option JsNumber) :=
  if falsy (PORT env) then try_ports pf [] PORTS
  else ([], inr (Some (parseInt10 pf (default "" (PORT env))))).

End PortFinderDirect.

Module Startup.

(** What the promise of [start] resolves with. *)
Record Bound : Type := mkBound {
  port : PortValue;
  host : string;
  protocol : Protocol;
}.

Definition Finder : Type := Platform → Env → list JsNumber * (string + option JsNumber).

(** [!port] *)
Definition no_port (found : option JsNumber) : bool :=
  match found with
  | None => true
  | Some NaN => true
  | Some (Num n) => if decide (n = 0%Z) then true else false
  end.

(** The listen of [start]: HTTPS when both files are named, after reading
    them, and HTTP otherwise. *)
Definition listen_on (pf : Platform) (env : Env) (port : PortValue) : string + Bound :=
  if negb (falsy (CERTFILE env)) && negb (falsy (KEYFILE env)) then
    match readFileSync pf (default "" (CERTFILE env)) with
    | inl message => inl message
    | inr _ =>
        match readFileSync pf (default "" (KEYFILE env)) with
        | inl message => inl message
        | inr _ =>
            match server_listen pf HTTPS port with
            | Some message => inl message
            | None => inr (mkBound port "0.0.0.0" HTTPS)
            end
        end
    end
  else
    match server_listen pf HTTP port with
    | Some message => inl message
    | None => inr (mkBound port "0.0.0.0" HTTP)
    end.

(** [start] of lib/server.js, as far as the port and the listen go: the
    ports tried by the finder, and the message of the rejection or what the
    promise resolves with. *)
Definition start (findAvailablePort : Finder) (pf : Platform) (env : Env)
    : list JsNumber * (string + Bound) :=
  if falsy (PORT env) then
    match findAvailablePort pf env with
    | (tried, inl message) => (tried, inl message)
    | (tried, inr found) =>
        if no_port found then
          (tried,
           inl "No available ports found. Please specify a port by using the PORT environment variable.")
        else (tried, listen_on pf env (Found (default NaN found)))
    end
  else ([], listen_on pf env (FromEnv (default "" (PORT env)))).

End Startup.

(** ** More sample data *)

Module Demo.

(** A platform on which 50880 is taken and 50881 is free. *)
Definition platform : Platform :=
  mkPlatform
    (fun s => if decide (s = "8080") then Num 8080 else NaN)
    (fun _ port =>
       match port with
       | Num 50880 => ErrorEvent "listen EADDRINUSE"
       | Num 50881 => Listening
       | Num 8080 => ErrorEvent "listen EADDRINUSE"
       | Num _ => Listening
       | NaN => ListenThrows "ERR_SOCKET_BAD_PORT"
       end)
    (fun path => if decide (path = "missing.pem") then inl "ENOENT" else inr "PEM")
    (fun _ _ => None).

(** A platform on which every port is taken. *)
Definition crowded : Platform :=
  mkPlatform (fun _ => NaN) (fun _ _ => ErrorEvent "listen EADDRINUSE")
    (fun _ => inl "ENOENT") (fun _ _ => None).

Definition env_local : Env := mkEnv None None None None.
Definition env_8080 : Env := mkEnv (Some "8080") None None None.
Definition env_render : Env := mkEnv (Some "8080") (Some "true") None None.
Definition env_tls : Env := mkEnv None None (Some "cert.pem") (Some "key.pem").

Definition echo : Tool := mkTool "echo" (JObj []).
Definition add : Tool := mkTool "add" (JObj []).

(** [listTools] throws on the first client and answers on the others. *)
Definition lister : Lister :=
  fun h => match h with 0 => inl "Not connected" | _ => inr (Some [echo; add]) end.

(** The world after the three servers of [Sample.batch] were requested on
    [Sample.calm]: ["a"] and ["c"] are registered. *)
Definition world_ac : World :=
  (post_start Sample.calm Sample.empty_world (Some Sample.batch)).1.

End Demo.

(** Closed decidable goals are settled by evaluation. *)
Ltac by_compute :=
  match goal with |- ?P => apply (bool_decide_unpack P); vm_compute; exact I end.

(** ** The comparison of configs *)

Section Stringify.

#[local] Instance key_le_trans {A} : Transitive (@key_le A).
Proof. intros p q r. unfold key_le. apply transitivity. Qed.

#[local] Instance key_le_total {A} : Total (@key_le A).
Proof. intros p q. unfold key_le. apply total, _. Qed.

Lemma sort_keys_perm {A} (o o' : list (string * A)) :
  keys_unique o → o ≡ₚ o' → sort_keys o = sort_keys o'.
Proof.
  intros Hnd Hp. unfold sort_keys.
  apply (StronglySorted_unique_strong key_le).
  - intros [k1 v1] [k2 v2] H1 H2 Hle Hge. unfold key_le in *. simpl in *.
    assert (k1 = k2) as -> by (by apply (anti_symm String.le)).
    rewrite merge_sort_Permutation in H1, H2. rewrite <- Hp in H2.
    f_equal. clear -Hnd H1 H2. unfold keys_unique in Hnd.
    induction o as [|[k v] o IH]; [by inv H1|].
    rewrite fmap_cons in Hnd. apply NoDup_cons in Hnd as [Hk Hnd].
    apply elem_of_cons in H1 as [H1|H1]; apply elem_of_cons in H2 as [H2|H2]; simplify_eq; auto.
    + exfalso. apply Hk. apply list_elem_of_fmap. by exists (k, v2).
    + exfalso. apply Hk. apply list_elem_of_fmap. by exists (k, v1).
  - apply StronglySorted_merge_sort; apply _.
  - apply StronglySorted_merge_sort; apply _.
  - by rewrite !merge_sort_Permutation.
Qed.

Lemma stringify_obj_perm (o o' : list (string * json)) :
  keys_unique o → o ≡ₚ o' → stringify (JObj o) = stringify (JObj o').
Proof.
  intros Hnd Hp. simpl.
  set (f := fun kv : string * json => let '(k, v) := kv in (k, stringify v)).
  rewrite (sort_keys_perm (map f o) (map f o')); [done| |].
  - unfold keys_unique in *. change (map f o) with (f <$> o).
    rewrite <- list_fmap_compose.
    erewrite list_fmap_ext; [exact Hnd|]. by intros ? [??].
  - by apply fmap_Permutation.
Qed.

Lemma stringify_env_perm (e e' : list (string * string)) :
  keys_unique e → e ≡ₚ e' → stringify (env_json e) = stringify (env_json e').
Proof.
  intros Hnd Hp. apply stringify_obj_perm.
  - unfold keys_unique in *.
    change (map (λ kv : string * string, (kv.1, JStr kv.2)) e)
      with ((λ kv : string * string, (kv.1, JStr kv.2)) <$> e).
    rewrite <- list_fmap_compose.
    erewrite list_fmap_ext; [exact Hnd|]. by intros ? [??].
  - by apply fmap_Permutation.
Qed.

Lemma config_json_same (c c' : Config) :
  env_keys_unique c → same_config c c' →
  stringify (config_json c) = stringify (config_json c').
Proof.
  destruct c as [cmd a e], c' as [cmd' a' e'].
  unfold env_keys_unique, same_config. simpl.
  intros Hnd (-> & -> & He).
  destruct e as [l|], e' as [l'|]; simpl in He; try done.
  pose proof (stringify_env_perm l l' Hnd He) as Hs.
  unfold config_json. simpl.
  destruct cmd', a'; simpl; simpl in Hs; by rewrite Hs.
Qed.

Lemma hasConfigChanged_same (c c' : Config) :
  env_keys_unique c → same_config c c' → hasConfigChanged c c' = false.
Proof.
  intros Hnd Hs. unfold hasConfigChanged.
  rewrite (config_json_same c c' Hnd Hs). by rewrite String.eqb_refl.
Qed.

Lemma hasConfigChanged_refl (c : Config) : hasConfigChanged c c = false.
Proof. unfold hasConfigChanged. by rewrite String.eqb_refl. Qed.

Lemma append_cons (x : Ascii.ascii) (a b : string) :
  String x a +:+ b = String x (a +:+ b).
Proof. reflexivity. Qed.

Lemma append_assoc (a b c : string) : (a +:+ b) +:+ c = a +:+ (b +:+ c).
Proof. induction a as [|x a IH]; [done|]. rewrite !append_cons. by rewrite IH. Qed.

Lemma read_literal_escape_char (c : Ascii.ascii) (rest : string) :
  read_literal (escape_char c +:+ rest)
  = match read_literal rest with
    | Some (t, r) => Some (String c t, r)
    | None => None
    end.
Proof.
  destruct c as [[] [] [] [] [] [] [] []]; reflexivity.
Qed.

Lemma read_literal_escape (s r : string) :
  read_literal (escape s +:+ String dquote r) = Some (s, r).
Proof.
  induction s as [|c s IH]; [done|].
  simpl escape. rewrite append_assoc, read_literal_escape_char. by rewrite IH.
Qed.

Lemma quote_inj_app (s s' r r' : string) :
  quote s +:+ r = quote s' +:+ r' → s = s' ∧ r = r'.
Proof.
  unfold quote. rewrite !append_cons, !append_assoc, !append_cons. intros [= H].
  apply (f_equal read_literal) in H. rewrite !read_literal_escape in H.
  by simplify_eq.
Qed.

Lemma string_tail (c : Ascii.ascii) (a b : string) : String c a = String c b → a = b.
Proof. by intros [=]. Qed.

Lemma append_nil_r (a : string) : a +:+ "" = a.
Proof. induction a as [|x a IH]; [done|]. rewrite append_cons. by rewrite IH. Qed.

Lemma join_cons (sep x : string) (xs : list string) :
  join sep (x :: xs)
  = x +:+ match xs with [] => "" | _ :: _ => sep +:+ join sep xs end.
Proof. destruct xs; [by rewrite append_nil_r|done]. Qed.

Lemma join_inj {A} (g : A → string) (term : Ascii.ascii) :
  self_delimiting g → quoted g →
  term ≠ dquote → term ≠ Ascii.ascii_of_nat 44 →
  ∀ l l' r r',
    join "," (map g l) +:+ String term r = join "," (map g l') +:+ String term r' →
    l = l' ∧ r = r'.
Proof.
  intros Hg Hq Hd Hc.
  induction l as [|x l IH]; intros [|x' l'] r r'.
  - intros [= ->]. done.
  - cbn [map]. rewrite join_cons. destruct (Hq x') as [t ->].
    rewrite append_assoc, append_cons. intros [= ? _]. done.
  - cbn [map]. rewrite join_cons. destruct (Hq x) as [t ->].
    rewrite append_assoc, append_cons. intros [= ? _]. done.
  - cbn [map]. rewrite !join_cons, !append_assoc. intros [-> Htl]%Hg.
    destruct l as [|y l], l' as [|y' l']; cbn [map] in Htl.
    + by injection Htl as ->.
    + exfalso. revert Htl. rewrite append_assoc. intros [= ? _]. done.
    + exfalso. revert Htl. rewrite append_assoc. intros [= ? _]. done.
    + revert Htl. rewrite !append_assoc. intros [= Htl].
      destruct (IH (y' :: l') r r' Htl) as [-> ->]. done.
Qed.

Lemma quote_self_delimiting : self_delimiting quote.
Proof. intros s s' r r'. apply quote_inj_app. Qed.

Lemma quote_quoted : quoted quote.
Proof. intros s. by eexists. Qed.

Lemma stringify_args (a : list string) :
  stringify (JArr (map JStr a)) = "[" +:+ join "," (map quote a) +:+ "]".
Proof. cbn [stringify]. by rewrite map_map. Qed.

Lemma stringify_args_inj (a a' : list string) (r r' : string) :
  stringify (JArr (map JStr a)) +:+ r = stringify (JArr (map JStr a')) +:+ r' →
  a = a' ∧ r = r'.
Proof.
  rewrite !stringify_args, !append_cons, !append_assoc. intros [= H].
  revert H. apply join_inj; [apply quote_self_delimiting|apply quote_quoted|done..].
Qed.

Lemma render_entry_self_delimiting : self_delimiting render_entry.
Proof.
  intros [k v] [k' v'] r r'. unfold render_entry. simpl.
  rewrite !append_assoc. intros [-> H]%quote_inj_app.
  change (String (Ascii.ascii_of_nat 58) (quote v +:+ r)
          = String (Ascii.ascii_of_nat 58) (quote v' +:+ r')) in H.
  apply string_tail in H. apply quote_inj_app in H as [-> ->]. done.
Qed.

Lemma render_entry_quoted : quoted render_entry.
Proof. intros [k v]. by eexists. Qed.

Lemma keys_unique_value {A} (o : list (string * A)) k v v' :
  keys_unique o → (k, v) ∈ o → (k, v') ∈ o → v = v'.
Proof.
  unfold keys_unique. induction o as [|[k0 v0] o IH]; [by intros _ ?%elem_of_nil|].
  rewrite fmap_cons. intros [Hk Hnd]%NoDup_cons H1 H2.
  apply elem_of_cons in H1 as [H1|H1]; apply elem_of_cons in H2 as [H2|H2];
    simplify_eq; auto.
  - exfalso. apply Hk. apply list_elem_of_fmap. by eexists (_, v').
  - exfalso. apply Hk. apply list_elem_of_fmap. by eexists (_, v).
Qed.

Lemma sort_keys_fmap {A B} (f : A → B) (o : list (string * A)) :
  keys_unique o →
  sort_keys (map (fun kv => (kv.1, f kv.2)) o) = map (fun kv => (kv.1, f kv.2)) (sort_keys o).
Proof.
  intros Hnd. set (F := fun kv : string * A => (kv.1, f kv.2)).
  assert (keys_unique (map F o)) as Hnd'.
  { unfold keys_unique in *. change (map F o) with (F <$> o).
    rewrite <- list_fmap_compose. erewrite list_fmap_ext; [exact Hnd|]. by intros ? [??]. }
  unfold sort_keys. apply (StronglySorted_unique_strong key_le).
  - intros [k1 v1] [k2 v2] H1 H2 Hle Hge. unfold key_le in *. simpl in *.
    assert (k1 = k2) as -> by (by apply (anti_symm String.le)).
    f_equal. apply (keys_unique_value (map F o) k2); [done| |].
    + by rewrite merge_sort_Permutation in H1.
    + change (map F (merge_sort key_le o)) with (F <$> merge_sort key_le o) in H2.
      by rewrite merge_sort_Permutation in H2.
  - apply StronglySorted_merge_sort; apply _.
  - apply (StronglySorted_fmap F key_le key_le);
      [|apply StronglySorted_merge_sort; apply _].
    by intros [??] [??].
  - rewrite merge_sort_Permutation.
    change (map F (merge_sort key_le o)) with (F <$> merge_sort key_le o).
    by rewrite merge_sort_Permutation.
Qed.

Lemma stringify_env (e : list (string * string)) :
  keys_unique e →
  stringify (env_json e) = "{" +:+ join "," (map render_entry (sort_keys e)) +:+ "}".
Proof.
  intros Hnd. unfold env_json. cbn [stringify]. rewrite map_map.
  rewrite (map_ext _ (fun kv : string * string => (kv.1, quote kv.2))) by done.
  rewrite (sort_keys_fmap quote e Hnd), map_map. done.
Qed.

Lemma stringify_env_inj (e e' : list (string * string)) (r r' : string) :
  keys_unique e → keys_unique e' →
  stringify (env_json e) +:+ r = stringify (env_json e') +:+ r' →
  sort_keys e = sort_keys e' ∧ r = r'.
Proof.
  intros Hnd Hnd'. rewrite !stringify_env by done.
  rewrite !append_cons, !append_assoc. intros [= H].
  revert H. apply join_inj;
    [apply render_entry_self_delimiting|apply render_entry_quoted|done..].
Qed.

Lemma sort_keys_config (X Y Z : option string) :
  sort_keys (opt_pair "command" X ++ opt_pair "args" Y ++ opt_pair "env" Z)
  = opt_pair "args" Y ++ opt_pair "command" X ++ opt_pair "env" Z.
Proof. destruct X, Y, Z; reflexivity. Qed.

Lemma stringify_config (c : Config) :
  env_keys_unique c →
  stringify (config_json c) = "{" +:+ join "," (map render_item (items c)) +:+ "}".
Proof.
  destruct c as [cmd a e]. unfold env_keys_unique. cbn [cfg_env]. intros Hnd.
  change (stringify (config_json (mkConfig cmd a e)))
    with ("{" +:+ join ","
            (map render_prop
               (sort_keys
                  (map (fun kv : string * json => let '(k, v) := kv in (k, stringify v))
                     (opt_prop "command" (JStr <$> cmd)
                      ++ opt_prop "args" ((fun a => JArr (map JStr a)) <$> a)
                      ++ opt_prop "env" (env_json <$> e))))) +:+ "}").
  assert (map (fun kv : string * json => let '(k, v) := kv in (k, stringify v))
            (opt_prop "command" (JStr <$> cmd)
             ++ opt_prop "args" ((fun a => JArr (map JStr a)) <$> a)
             ++ opt_prop "env" (env_json <$> e))
          = opt_pair "command" (quote <$> cmd)
            ++ opt_pair "args" ((fun a => stringify (JArr (map JStr a))) <$> a)
            ++ opt_pair "env" ((fun e => stringify (env_json e)) <$> e)) as ->
    by (by destruct cmd, a, e).
  rewrite sort_keys_config. unfold items. cbn [cfg_args cfg_command cfg_env].
  destruct e as [e|]; cbn [fmap option_fmap option_map opt_pair];
    [rewrite (stringify_env e Hnd)|]; by destruct cmd, a.
Qed.

Lemma block_inj {A} (g : A → string) (opening closing : Ascii.ascii) l l' r r' :
  self_delimiting g → quoted g →
  closing ≠ dquote → closing ≠ Ascii.ascii_of_nat 44 →
  String opening "" +:+ join "," (map g l) +:+ String closing "" +:+ r
  = String opening "" +:+ join "," (map g l') +:+ String closing "" +:+ r' →
  l = l' ∧ r = r'.
Proof.
  intros Hg Hq Hd Hc H.
  change (String opening (join "," (map g l) +:+ String closing r)
          = String opening (join "," (map g l') +:+ String closing r')) in H.
  apply string_tail in H. revert H. by apply join_inj.
Qed.

Lemma render_item_quoted : quoted render_item.
Proof. intros [a|s|l]; by eexists. Qed.

Lemma render_item_self_delimiting : self_delimiting render_item.
Proof.
  intros i i' r r'. destruct i as [a|s|l], i' as [a'|s'|l']; cbn [render_item];
    rewrite !append_assoc; intros [Hk H]%quote_inj_app; try discriminate Hk;
    apply string_tail in H.
  - apply stringify_args_inj in H as [-> ->]. done.
  - apply quote_inj_app in H as [-> ->]. done.
  - apply block_inj in H as [-> ->];
      [done|apply render_entry_self_delimiting|apply render_entry_quoted|done..].
Qed.

Lemma config_json_inj (c c' : Config) :
  env_keys_unique c → env_keys_unique c' →
  stringify (config_json c) = stringify (config_json c') → same_config c c'.
Proof.
  intros Hnd Hnd' H. rewrite !stringify_config in H by done.
  assert (items c = items c') as Hi.
  { apply (block_inj render_item (Ascii.ascii_of_nat 123) (Ascii.ascii_of_nat 125)
             (items c) (items c') "" "");
      [apply render_item_self_delimiting|apply render_item_quoted|done..]. }
  destruct c as [cmd a e], c' as [cmd' a' e']. unfold items in Hi.
  cbn [cfg_args cfg_command cfg_env] in Hi. unfold same_config. simpl.
  assert (cmd = cmd' ∧ a = a' ∧ (sort_keys <$> e) = (sort_keys <$> e')) as (-> & -> & He)
    by (destruct cmd, cmd', a, a', e, e';
        cbn [opt_item app fmap option_fmap option_map] in *;
        repeat split; congruence).
  split; [done|]. split; [done|].
  destruct e as [l|], e' as [l'|]; cbn [fmap option_fmap option_map] in He;
    try done.
  injection He as He. unfold sort_keys in He. cbn [same_env].
  rewrite <- (merge_sort_Permutation key_le l), He. apply merge_sort_Permutation.
Qed.

Lemma hasConfigChanged_false_iff (c c' : Config) :
  env_keys_unique c → env_keys_unique c' →
  hasConfigChanged c c' = false ↔ same_config c c'.
Proof.
  intros Hnd Hnd'. split.
  - unfold hasConfigChanged. intros H%negb_false_iff%String.eqb_eq.
    by apply config_json_inj.
  - by apply hasConfigChanged_same.
Qed.


End Stringify.

(** ** startClient *)

Section StartClient.

Variable p : Peer.

Lemma startClient_begin_clients w clientId config :
  clients (startClient_begin p w clientId config).1 = clients w.
Proof. unfold startClient_begin. by destruct (falsy _). Qed.

Lemma startClient_begin_thrown w clientId config w' message :
  startClient_begin p w clientId config = (w', inl message) →
  w' = w ∧ message = "Command is required" ∧ falsy (cfg_command config) = true.
Proof. unfold startClient_begin. destruct (falsy _); naive_solver. Qed.

Lemma startClient_begin_pending w clientId config w' k :
  startClient_begin p w clientId config = (w', inr k) →
  falsy (cfg_command config) = false
  ∧ k = mkPending clientId (next_client w)
          (mkTransport (default "" (cfg_command config)) (default [] (cfg_args config))
             (transport_env p (default [] (cfg_env config))))
          (default "" (cfg_command config)) (default [] (cfg_args config))
          (default [] (cfg_env config)) config
  ∧ w' = mkWorld (clients w) (S (next_client w))
           (calls w ++ [CConnect (next_client w) (p_transport k)]).
Proof.
  unfold startClient_begin. destruct (falsy _); [done|].
  intros [= <- <-]. done.
Qed.

Lemma startClient_resume_thrown w k w' message :
  startClient_resume p w k = (w', inl message) →
  w' = w ∧ ∃ t, race p (p_client k) (p_id k) (p_command k) (p_args k) = Failed t message.
Proof.
  unfold startClient_resume. destruct (race _ _ _ _ _) as [t|t m]; [done|].
  intros [= <- <-]. eauto.
Qed.

Lemma startClient_resume_started w k w' result :
  startClient_resume p w k = (w', inr result) →
  (∃ t, race p (p_client k) (p_id k) (p_command k) (p_args k) = Connected t)
  ∧ result = mkStarted (p_id k) "MCP client started successfully"
  ∧ calls w' = calls w ∧ next_client w' = next_client w
  ∧ ∃ entry, clients w' = <[p_id k := entry]> (clients w)
       ∧ config entry = p_config k ∧ client entry = p_client k
       ∧ transport entry = p_transport k ∧ id entry = p_id k.
Proof.
  unfold startClient_resume. destruct (race _ _ _ _ _) as [t|t m]; [|done].
  intros [= <- <-]. split; [eauto|]. do 3 (split; [done|]).
  eexists. split; [done|]. done.
Qed.

Lemma race_connected h clientId cmd a t :
  race p h clientId cmd a = Connected t →
  connect_settle p h = Resolves t ∧ (t < timer_fires p h)%N.
Proof.
  unfold race. destruct (connect_settle p h); repeat case_decide; naive_solver.
Qed.

Lemma race_never h clientId cmd a :
  connect_settle p h = Never →
  race p h clientId cmd a
  = Failed (timer_fires p h) (timeout_message (timer_fires p h) clientId cmd a).
Proof. unfold race. by intros ->. Qed.

End StartClient.

(** ** Object spread *)

Section Spread.

Lemma get_set_prop_eq k v o : get_prop k (set_prop k v o) = Some v.
Proof.
  induction o as [|[k' v'] o IH]; simpl; [by case_decide|].
  destruct (decide (k' = k)); simpl; [by case_decide|].
  by case_decide.
Qed.

Lemma get_set_prop_ne k k' v o : k ≠ k' → get_prop k' (set_prop k v o) = get_prop k' o.
Proof.
  intros Hne. induction o as [|[k0 v0] o IH]; simpl; [by case_decide|].
  destruct (decide (k0 = k)) as [->|]; simpl; repeat case_decide; simplify_eq; done.
Qed.

Lemma spread_snoc base over k v :
  spread base (over ++ [(k, v)]) = set_prop k v (spread base over).
Proof. unfold spread. by rewrite foldl_app. Qed.

Lemma get_spread_over base over k v :
  keys_unique over → (k, v) ∈ over → get_prop k (spread base over) = Some v.
Proof.
  unfold keys_unique.
  induction over as [|[k0 v0] over IH] using rev_ind; [by intros _ ?%elem_of_nil|].
  rewrite fmap_app, spread_snoc. simpl.
  intros [Hnd [Hk0 _]]%NoDup_app Hin.
  apply elem_of_app in Hin as [Hin|Hin%list_elem_of_singleton].
  - assert (k0 ≠ k).
    { intros ->. apply (Hk0 k); [|by left]. apply list_elem_of_fmap. by exists (k, v). }
    rewrite get_set_prop_ne by done. by apply IH.
  - simplify_eq. apply get_set_prop_eq.
Qed.

Lemma get_spread_base base over k :
  k ∉ over.*1 → get_prop k (spread base over) = get_prop k base.
Proof.
  induction over as [|[k0 v0] over IH] using rev_ind; [done|].
  rewrite fmap_app, spread_snoc. simpl. intros Hk.
  rewrite get_set_prop_ne.
  - apply IH. intros ?. apply Hk, elem_of_app. by left.
  - intros ->. apply Hk, elem_of_app. right. by left.
Qed.

End Spread.

(** ** Failure of startClient *)

Section StartFailure.

Variable p : Peer.

(** C1. A call of [startClient] that fails for a missing command, for a
    rejected connect or for a connect that lost the race against the timer
    returns the error of that step and leaves the registry as it was; the
    registry changes only when the connect has resolved in time. *)
Theorem startClient_failure_keeps_registry (w : World) (clientId : string) (config : Config) :
  let h := next_client w in
  let command := default "" (cfg_command config) in
  let args := default [] (cfg_args config) in
  let out := startClient p w clientId config in
  (falsy (cfg_command config) = true → out = (w, inl "Command is required"))
  ∧ (∀ t message, falsy (cfg_command config) = false →
       connect_settle p h = Rejects t message → (t < timer_fires p h)%N →
       out.2 = inl message ∧ clients out.1 = clients w)
  ∧ (falsy (cfg_command config) = false →
       (connect_settle p h = Never
        ∨ ∃ t, (timer_fires p h ≤ t)%N
               ∧ (connect_settle p h = Resolves t ∨ ∃ m, connect_settle p h = Rejects t m)) →
       out.2 = inl (timeout_message (timer_fires p h) clientId command args)
       ∧ clients out.1 = clients w)
  ∧ (∀ message, out.2 = inl message → clients out.1 = clients w)
  ∧ (clients out.1 ≠ clients w →
       ∃ t, connect_settle p h = Resolves t ∧ (t < timer_fires p h)%N).
Proof.
  intros h command args out. subst out. unfold startClient.
  destruct (startClient_begin p w clientId config) as [w1 [m|k]] eqn:Hb.
  - apply startClient_begin_thrown in Hb as (-> & -> & Hf).
    rewrite Hf. repeat split; done.
  - apply startClient_begin_pending in Hb as (Hf & Hk & Hw1).
    assert (clients w1 = clients w) as Hc by (by rewrite Hw1).
    assert (race p (p_client k) (p_id k) (p_command k) (p_args k)
            = race p h clientId command args) as Hr by (by rewrite Hk).
    rewrite Hf. unfold startClient_resume. rewrite Hr.
    split; [done|]. split; [|split; [|split]].
    + intros t message _ Hs Hlt. unfold race. rewrite Hs.
      rewrite decide_True by done. done.
    + intros _ Hs. unfold race.
      destruct Hs as [->|(t & Hle & [->| [m ->]])]; [done| |];
        rewrite decide_False by lia; done.
    + intros message. destruct (race p h clientId command args); [done|].
      simpl. done.
    + destruct (race p h clientId command args) as [t|t m] eqn:Hrace; [|done].
      intros _. exists t. by apply race_connected in Hrace.
Qed.

End StartFailure.

(** Two of the failures on the sample peer: no command, and a refused
    connect. *)
Lemma startClient_failure_keeps_registry_witness :
  startClient Sample.peer Sample.world_a "x" Sample.cfg_no_command
    = (Sample.world_a, inl "Command is required")
  ∧ clients (startClient Sample.peer Sample.world_a "b" Sample.cfg_plain).1
    = clients Sample.world_a.
Proof.
  split.
  - apply (startClient_failure_keeps_registry Sample.peer Sample.world_a "x"
             Sample.cfg_no_command). reflexivity.
  - apply (startClient_failure_keeps_registry Sample.peer Sample.world_a "b"
             Sample.cfg_plain) with (message := "spawn ENOENT"). reflexivity.
Defined.

(** ** The bound on the connect *)

(** C5. When the connect of a start never settles, the start fails once the
    timer of five minutes has fired: the error names the elapsed time, the
    id, the command and the arguments; the only call made on the SDK is the
    connect itself (the attempt is not closed or killed), and the registry
    is as before. *)
Theorem connect_timeout (p : Peer) (w : World) (clientId : string) (config : Config) :
  falsy (cfg_command config) = false →
  connect_settle p (next_client w) = Never →
  let h := next_client w in
  let command := default "" (cfg_command config) in
  let args := default [] (cfg_args config) in
  let elapsed := timer_fires p h in
  ∃ transport,
    startClient p w clientId config
    = (mkWorld (clients w) (S h) (calls w ++ [CConnect h transport]),
       inl ("Connection timeout after " +:+ pretty elapsed +:+ "ms. Client: " +:+ clientId
              +:+ ", Command: " +:+ command +:+ " " +:+ join " " args))
    ∧ (5 * 60 * 1000 ≤ elapsed)%N
    ∧ elapsed = (CONNECT_TIMEOUT_MS + timer_late p h)%N.
Proof.
  intros Hf Hn h command args elapsed.
  unfold startClient, startClient_begin. rewrite Hf.
  unfold startClient_resume. simpl.
  rewrite (race_never p _ _ _ _ Hn). eexists. split; [reflexivity|].
  subst elapsed. unfold timer_fires, CONNECT_TIMEOUT_MS. split; [lia|done].
Qed.

Lemma connect_timeout_witness :
  ∃ transport,
    startClient Sample.peer (mkWorld ∅ 2 []) "c" Sample.cfg_plain
    = (mkWorld ∅ 3 [CConnect 2 transport],
       inl "Connection timeout after 300004ms. Client: c, Command: node index.js")
    ∧ (5 * 60 * 1000 ≤ 300004)%N
    ∧ 300004%N = (CONNECT_TIMEOUT_MS + 4)%N.
Proof.
  exact (connect_timeout Sample.peer (mkWorld ∅ 2 []) "c" Sample.cfg_plain
           eq_refl eq_refl).
Defined.

(** ** The environment of the transport *)

(** C7. The transport of a start gets no [env] at all when the config has no
    environment entries, and otherwise the default environment overridden by
    the entries of the config: each key of the config has the value of the
    config, every other key the value of the default environment. *)
Theorem transport_environment (p : Peer) (w : World) (clientId : string) (config : Config)
    (w' : World) (k : Pending) :
  startClient_begin p w clientId config = (w', inr k) →
  let env := default [] (cfg_env config) in
  last (calls w') = Some (CConnect (p_client k) (p_transport k))
  ∧ (env = [] → tr_env (p_transport k) = None)
  ∧ (env ≠ [] → keys_unique env →
       ∃ merged, tr_env (p_transport k) = Some merged
         ∧ merged = spread (getDefaultEnvironment p) env
         ∧ (∀ key value, (key, value) ∈ env → get_prop key merged = Some value)
         ∧ (∀ key, key ∉ env.*1 →
              get_prop key merged = get_prop key (getDefaultEnvironment p))).
Proof.
  intros Hb env. apply startClient_begin_pending in Hb as (_ & -> & ->). simpl.
  split; [by rewrite last_snoc|]. fold env. unfold transport_env. split.
  - intros ->. done.
  - intros Hne Hnd. rewrite decide_True by (destruct env; [done|simpl; lia]).
    eexists. split; [done|]. split; [done|]. split.
    + intros key value Hin. by apply get_spread_over.
    + intros key Hin. by apply get_spread_base.
Qed.

Lemma transport_environment_witness :
  (∃ w' k, startClient_begin Sample.peer Sample.empty_world "e" Sample.cfg_empty_env
           = (w', inr k)
     ∧ tr_env (p_transport k) = None)
  ∧ (∃ w' k merged, startClient_begin Sample.peer Sample.empty_world "a" Sample.cfg_a
                    = (w', inr k)
       ∧ tr_env (p_transport k) = Some merged
       ∧ get_prop "A" merged = Some "1"
       ∧ get_prop "PATH" merged = Some "/usr/bin").
Proof.
  split.
  - eexists _, _. split; [reflexivity|].
    exact (proj1 (proj2 (transport_environment Sample.peer Sample.empty_world "e"
                   Sample.cfg_empty_env _ _ eq_refl)) eq_refl).
  - destruct (proj2 (proj2 (transport_environment Sample.peer Sample.empty_world "a"
                   Sample.cfg_a _ _ eq_refl)))
      as (merged & Hm & _ & Hover & Hbase).
    + discriminate.
    + by_compute.
    + eexists _, _, merged. split; [reflexivity|]. split; [exact Hm|]. split.
      * apply Hover. by_compute.
      * rewrite Hbase; [reflexivity|]. by_compute.
Defined.

(** ** The callbacks of POST /start *)

Section Batch.

Variable p : Peer.

Lemma start_server_begin_clients w serverId config :
  clients (start_server_begin p w serverId config).1 = clients w.
Proof.
  unfold start_server_begin.
  destruct (clients w !! serverId) as [[]|]; [destruct (hasConfigChanged _ _)|]; simpl;
    try done;
    match goal with
    | |- context [startClient_begin p ?w0 serverId config] =>
        pose proof (startClient_begin_clients p w0 serverId config) as H;
        destruct (startClient_begin p w0 serverId config) as [? [?|?]]
    end; done.
Qed.

Lemma start_server_begin_task_id w serverId config :
  task_id (start_server_begin p w serverId config).2 = None
  ∨ task_id (start_server_begin p w serverId config).2 = Some serverId.
Proof.
  unfold start_server_begin.
  destruct (clients w !! serverId) as [[]|]; [destruct (hasConfigChanged _ _)|]; simpl;
    auto;
    match goal with
    | |- context [startClient_begin p ?w0 serverId config] =>
        destruct (startClient_begin p w0 serverId config) as [? [?|k]] eqn:Hb
    end; simpl; auto.
  all: apply startClient_begin_pending in Hb as (_ & -> & _); auto.
Qed.

Lemma start_server_begin_unchanged w serverId config entry :
  clients w !! serverId = Some entry →
  hasConfigChanged (Bridge.config entry) config = false →
  start_server_begin p w serverId config = (w, TReturned).
Proof.
  intros He Hc. unfold start_server_begin. rewrite He. destruct entry. simpl in Hc.
  by rewrite Hc.
Qed.

Lemma start_servers_begin_clients servers : ∀ w,
  clients (start_servers_begin p w servers).1 = clients w.
Proof.
  induction servers as [|[serverId config] rest IH]; intros w; simpl; [done|].
  pose proof (start_server_begin_clients w serverId config) as H1.
  destruct (start_server_begin p w serverId config) as [w1 t].
  specialize (IH w1). destruct (start_servers_begin p w1 rest) as [w2 ts].
  simpl in *. congruence.
Qed.

Lemma start_servers_begin_app l1 l2 : ∀ w,
  start_servers_begin p w (l1 ++ l2)
  = let '(w1, t1) := start_servers_begin p w l1 in
    let '(w2, t2) := start_servers_begin p w1 l2 in
    (w2, t1 ++ t2).
Proof.
  induction l1 as [|[serverId config] l1 IH]; intros w; simpl.
  - by destruct (start_servers_begin p w l2).
  - destruct (start_server_begin p w serverId config) as [w1 t].
    rewrite IH. destruct (start_servers_begin p w1 l1) as [w2 t1].
    by destruct (start_servers_begin p w2 l2).
Qed.

Lemma start_servers_begin_ids servers : ∀ w,
  omap task_id (start_servers_begin p w servers).2 `sublist_of` servers.*1.
Proof.
  induction servers as [|[sid cfg] rest IH]; intros w; simpl; [done|].
  pose proof (start_server_begin_task_id w sid cfg) as Hid.
  destruct (start_server_begin p w sid cfg) as [w1 t].
  specialize (IH w1). destruct (start_servers_begin p w1 rest) as [w2 ts].
  simpl in *. destruct Hid as [-> | ->].
  - by apply sublist_cons.
  - by apply sublist_skip.
Qed.

End Batch.

(** ** The resumption of the callbacks *)

Section Resume.

Variable p : Peer.

Lemma resume_order_perm ts : resume_order p ts ≡ₚ ts.
Proof.
  unfold resume_order. rewrite merge_sort_Permutation.
  induction ts as [|t ts IH]; [done|]. simpl.
  destruct (is_awaiting t); simpl.
  - rewrite <- Permutation_middle. by f_equiv.
  - by f_equiv.
Qed.

Lemma foldl_resume_returned l1 l2 st :
  foldl (start_server_resume p) st (l1 ++ TReturned :: l2)
  = foldl (start_server_resume p) st (l1 ++ l2).
Proof. rewrite !foldl_app. simpl. by destruct (foldl _ st l1). Qed.

Lemma foldl_resume_results ts : ∀ w r,
  let out := foldl (start_server_resume p) (w, r) ts in
  success out.2 = success r ++ started_of p ts
  ∧ errors out.2 = errors r ++ failures_of p ts
  ∧ calls out.1 = calls w ∧ next_client out.1 = next_client w.
Proof.
  induction ts as [|t ts IH]; intros w r; simpl.
  { by rewrite !app_nil_r. }
  destruct t as [|sid m|k]; simpl.
  - apply IH.
  - destruct (IH w (mkResults (success r) (errors r ++ [failed_to_initialize sid m])))
      as (Hs & He & Hc & Hn).
    simpl in *. rewrite Hs, He, <- app_assoc. done.
  - unfold started_of, failures_of, startClient_resume. simpl.
    destruct (race p (p_client k) (p_id k) (p_command k) (p_args k)) as [t|t m]; simpl.
    + match goal with |- context [foldl _ (?w1, ?r1) ts] =>
        destruct (IH w1 r1) as (Hs & He & Hc & Hn) end.
      simpl in *. rewrite Hs, He, <- app_assoc. done.
    + match goal with |- context [foldl _ (?w1, ?r1) ts] =>
        destruct (IH w1 r1) as (Hs & He & Hc & Hn) end.
      simpl in *. rewrite Hs, He, <- app_assoc. done.
Qed.

Lemma foldl_resume_lookup_other ts : ∀ w r serverId,
  (∀ k t, TAwaiting k ∈ ts → p_id k = serverId →
     race p (p_client k) (p_id k) (p_command k) (p_args k) ≠ Connected t) →
  clients (foldl (start_server_resume p) (w, r) ts).1 !! serverId = clients w !! serverId.
Proof.
  induction ts as [|t ts IH]; intros w r serverId Hno; simpl; [done|].
  assert (∀ k t, TAwaiting k ∈ ts → p_id k = serverId →
     race p (p_client k) (p_id k) (p_command k) (p_args k) ≠ Connected t) as Hno'.
  { intros k t0 Hin. apply Hno. by right. }
  destruct t as [|sid m|k]; simpl; try by apply IH.
  unfold startClient_resume.
  destruct (race p (p_client k) (p_id k) (p_command k) (p_args k)) as [t|t m] eqn:Hr.
  - rewrite IH by done. simpl. apply lookup_insert_ne. intros Heq.
    by apply (Hno k t); [left| |].
  - by apply IH.
Qed.

Lemma foldl_resume_lookup_started ts : ∀ w r k t,
  NoDup (omap task_id ts) → TAwaiting k ∈ ts →
  race p (p_client k) (p_id k) (p_command k) (p_args k) = Connected t →
  ∃ entry, clients (foldl (start_server_resume p) (w, r) ts).1 !! p_id k = Some entry
    ∧ config entry = p_config k ∧ client entry = p_client k
    ∧ transport entry = p_transport k ∧ id entry = p_id k.
Proof.
  induction ts as [|t0 ts IH]; intros w r k t Hnd Hin Hr; [by apply elem_of_nil in Hin|].
  assert (NoDup (omap task_id ts)) as Hnd'.
  { simpl in Hnd. destruct (task_id t0); [by apply NoDup_cons in Hnd as [_ ?]|done]. }
  apply elem_of_cons in Hin as [<-|Hin].
  - simpl. unfold startClient_resume. rewrite Hr.
    rewrite foldl_resume_lookup_other.
    + simpl. rewrite lookup_insert_eq. eexists. split; [done|]. done.
    + intros k' t' Hin' Hid _.
      simpl in Hnd. apply NoDup_cons in Hnd as [Hn _]. apply Hn.
      apply list_elem_of_omap. exists (TAwaiting k'). split; [done|]. simpl. by f_equal.
  - cbn [foldl]. destruct (start_server_resume p (w, r) t0) as [w1 r1]. by eapply IH.
Qed.

End Resume.

(** ** POST /start *)

Section PostStart.

Variable p : Peer.

Lemma task_result_started t s :
  task_result p t = Some (inl s) →
  task_id t = Some (s_id s) ∧ s_message s = "MCP client started successfully"
  ∧ ∃ k at_ms, t = TAwaiting k
      ∧ race p (p_client k) (p_id k) (p_command k) (p_args k) = Connected at_ms.
Proof.
  destruct t as [|sid m|k]; simpl; try done.
  destruct (race p _ _ _ _) as [at_ms|at_ms m] eqn:Hr; [|done].
  intros [= <-]. eauto 10.
Qed.

Lemma task_result_failed t e :
  task_result p t = Some (inr e) →
  task_id t = Some (err_id e)
  ∧ ∀ k at_ms, t = TAwaiting k →
      race p (p_client k) (p_id k) (p_command k) (p_args k) ≠ Connected at_ms.
Proof.
  destruct t as [|sid m|k]; simpl; try done.
  - intros [= <-]. done.
  - destruct (race p _ _ _ _) as [at_ms|at_ms m] eqn:Hr; [done|].
    intros [= <-]. split; [done|]. intros ?? [= <-]. congruence.
Qed.

Lemma elem_of_started_of ts s :
  s ∈ started_of p ts ↔ ∃ t, t ∈ ts ∧ task_result p t = Some (inl s).
Proof.
  unfold started_of. rewrite list_elem_of_omap. split.
  - intros (t & Hin & Hr). exists t. split; [done|].
    destruct (task_result p t) as [[]|]; naive_solver.
  - intros (t & Hin & Hr). exists t. by rewrite Hr.
Qed.

Lemma elem_of_failures_of ts e :
  e ∈ failures_of p ts ↔ ∃ t, t ∈ ts ∧ task_result p t = Some (inr e).
Proof.
  unfold failures_of. rewrite list_elem_of_omap. split.
  - intros (t & Hin & Hr). exists t. split; [done|].
    destruct (task_result p t) as [[]|]; naive_solver.
  - intros (t & Hin & Hr). exists t. by rewrite Hr.
Qed.

(** The response of the handler in terms of the tasks. *)
Lemma post_start_spec w servers :
  let ts := (start_servers_begin p w servers).2 in
  let out := foldl (start_server_resume p)
               ((start_servers_begin p w servers).1, mkResults [] []) (resume_order p ts) in
  let resp := (post_start p w (Some servers)).2 in
  (post_start p w (Some servers)).1 = out.1
  ∧ response_success resp = started_of p (resume_order p ts)
  ∧ response_errors resp = failures_of p (resume_order p ts)
  ∧ (status resp = 201 ∨ status resp = 400).
Proof.
  intros ts out resp. subst resp out ts. unfold post_start.
  destruct (start_servers_begin p w servers) as [w1 ts]. simpl.
  destruct (foldl_resume_results p (resume_order p ts) w1 (mkResults [] []))
    as (Hs & He & _ & _).
  destruct (foldl (start_server_resume p) (w1, mkResults [] []) (resume_order p ts))
    as [w2 results].
  simpl in *. case_decide as Hlen; simpl; unfold response_success, response_errors; simpl.
  - rewrite <- He. destruct (errors results); [auto|done].
  - auto.
Qed.

Lemma start_server_begin_awaiting w serverId config k :
  (start_server_begin p w serverId config).2 = TAwaiting k →
  p_id k = serverId ∧ p_config k = config.
Proof.
  unfold start_server_begin.
  destruct (clients w !! serverId) as [[]|]; [destruct (hasConfigChanged _ _)|]; simpl;
    try done;
    match goal with
    | |- context [startClient_begin p ?w0 serverId config] =>
        destruct (startClient_begin p w0 serverId config) as [? [?|k']] eqn:Hb
    end; simpl; try done.
  all: intros [= ->]; by apply startClient_begin_pending in Hb as (_ & -> & _).
Qed.

(** With distinct ids in the request, the callback of an entry is the only
    task for its id. *)
Lemma start_servers_begin_own servers : ∀ w serverId config,
  keys_unique servers → (serverId, config) ∈ servers →
  ∃ w0, clients w0 = clients w
    ∧ (start_server_begin p w0 serverId config).2 ∈ (start_servers_begin p w servers).2
    ∧ ∀ t', t' ∈ (start_servers_begin p w servers).2 → task_id t' = Some serverId →
        t' = (start_server_begin p w0 serverId config).2.
Proof.
  unfold keys_unique.
  induction servers as [|[sid cfg] rest IH]; intros w serverId config Hnd Hin;
    [by apply elem_of_nil in Hin|].
  rewrite fmap_cons in Hnd. apply NoDup_cons in Hnd as [Hsid Hnd]. simpl in Hsid.
  pose proof (start_server_begin_clients p w sid cfg) as H1.
  pose proof (start_server_begin_task_id p w sid cfg) as Hid.
  pose proof (start_servers_begin_ids p rest (start_server_begin p w sid cfg).1) as Hsub.
  simpl. destruct (start_server_begin p w sid cfg) as [w1 t] eqn:Hb. simpl in *.
  specialize (IH w1 serverId config Hnd).
  destruct (start_servers_begin p w1 rest) as [w2 ts]. simpl in *.
  apply elem_of_cons in Hin as [[= -> ->]|Hin].
  - exists w. rewrite Hb. simpl. split; [done|]. split; [by left|].
    intros t' [->|Hin']%elem_of_cons Hi; [done|].
    exfalso. apply Hsid. eapply elem_of_sublist; [|exact Hsub].
    apply list_elem_of_omap. by exists t'.
  - destruct (IH Hin) as (w0 & Hc & Ht & Huniq). exists w0.
    split; [congruence|]. split; [by right|].
    intros t' [->|Hin']%elem_of_cons Hi; [|by apply Huniq].
    exfalso. apply Hsid. destruct Hid as [Hid|Hid]; rewrite Hid in Hi; simplify_eq.
    apply list_elem_of_fmap. by exists (serverId, config).
Qed.

End PostStart.

(** ** Isolation of the servers of one request *)


(** Two servers of three start although the third has no command. *)
Example batch_of_three :
  (post_start Sample.calm Sample.empty_world (Some Sample.batch)).2
  = mkResponse 400
      (SomeFailed
         [mkStarted "a" "MCP client started successfully";
          mkStarted "c" "MCP client started successfully"]
         [mkStartError "bad" "Failed to initialize: Command is required"]).
Proof. vm_compute. reflexivity. Qed.


(** ** A server whose config did not change *)

Lemma response_ids (p : Peer) (w : World) (servers : list (string * Config)) :
  let resp := (post_start p w (Some servers)).2 in
  (∀ s, s ∈ response_success resp → s_id s ∈ servers.*1)
  ∧ (∀ e, e ∈ response_errors resp → err_id e ∈ servers.*1).
Proof.
  intros resp. destruct (post_start_spec p w servers) as (_ & Hs & He & _).
  fold resp in Hs, He. split.
  - intros s Hin. rewrite Hs in Hin.
    apply elem_of_started_of in Hin as (t & Hin & Hr). rewrite resume_order_perm in Hin.
    apply task_result_started in Hr as (Hid & _).
    eapply elem_of_sublist; [|apply (start_servers_begin_ids p servers w)].
    apply list_elem_of_omap. by exists t.
  - intros e Hin. rewrite He in Hin.
    apply elem_of_failures_of in Hin as (t & Hin & Hr). rewrite resume_order_perm in Hin.
    apply task_result_failed in Hr as (Hid & _).
    eapply elem_of_sublist; [|apply (start_servers_begin_ids p servers w)].
    apply list_elem_of_omap. by exists t.
Qed.

Lemma post_start_lookup_absent (p : Peer) (w : World) (servers : list (string * Config))
    (serverId : string) :
  serverId ∉ servers.*1 →
  clients (post_start p w (Some servers)).1 !! serverId = clients w !! serverId.
Proof.
  intros Hnotin. destruct (post_start_spec p w servers) as (-> & _).
  rewrite foldl_resume_lookup_other; [by rewrite start_servers_begin_clients|].
  intros k _ Hin Hid _. rewrite resume_order_perm in Hin. apply Hnotin.
  eapply elem_of_sublist; [|apply (start_servers_begin_ids p servers w)].
  apply list_elem_of_omap. exists (TAwaiting k). split; [done|]. simpl. by f_equal.
Qed.

Lemma post_start_drop_unchanged (p : Peer) (w : World) (pre post : list (string * Config))
    (serverId : string) (config : Config) (entry : ClientEntry) :
  clients w !! serverId = Some entry →
  hasConfigChanged (Bridge.config entry) config = false →
  post_start p w (Some (pre ++ (serverId, config) :: post))
  = post_start p w (Some (pre ++ post)).
Proof.
  intros He Hc. unfold post_start.
  rewrite !start_servers_begin_app.
  pose proof (start_servers_begin_clients p pre w) as Hc1.
  destruct (start_servers_begin p w pre) as [w1 t1]. simpl in Hc1.
  cbn [start_servers_begin].
  rewrite (start_server_begin_unchanged p w1 serverId config entry) by congruence.
  destruct (start_servers_begin p w1 post) as [w2 t2].
  unfold resume_order. rewrite !List.filter_app. simpl.
  rewrite <- !app_assoc, <- app_comm_cons.
  by rewrite foldl_resume_returned.
Qed.

(** C10. A server of the request whose config is the stored one (the same
    command, the same arguments in order, the same environment entries) is
    left out of the answer: the handler answers, and leaves the state, as if
    the server had not been in the request, and when the id occurs once in
    the request it is in neither list of the answer. *)
Theorem unchanged_server_is_omitted (p : Peer) (w : World)
    (pre post : list (string * Config)) (serverId : string) (config : Config)
    (entry : ClientEntry) :
  clients w !! serverId = Some entry →
  env_keys_unique (Bridge.config entry) →
  same_config (Bridge.config entry) config →
  let out := post_start p w (Some (pre ++ (serverId, config) :: post)) in
  out = post_start p w (Some (pre ++ post))
  ∧ (keys_unique (pre ++ (serverId, config) :: post) →
       (serverId ∉ s_id <$> response_success out.2)
       ∧ (serverId ∉ err_id <$> response_errors out.2)
       ∧ clients out.1 !! serverId = Some entry).
Proof.
  intros He Hu Hsame out.
  assert (out = post_start p w (Some (pre ++ post))) as Heq.
  { eapply post_start_drop_unchanged; [done|]. by apply hasConfigChanged_same. }
  split; [done|]. intros Hnd.
  assert (serverId ∉ (pre ++ post).*1) as Hnotin.
  { unfold keys_unique in Hnd. rewrite fmap_app, fmap_cons in Hnd. simpl in Hnd.
    apply NoDup_app in Hnd as (_ & Hpre & [Hpost _]%NoDup_cons).
    rewrite fmap_app. intros [Hin|Hin]%elem_of_app; [|done].
    apply (Hpre serverId Hin). by left. }
  destruct (response_ids p w (pre ++ post)) as [Hs Hf]. rewrite <- Heq in Hs, Hf.
  split; [|split].
  - intros (s & -> & Hin)%list_elem_of_fmap. by apply Hnotin, Hs.
  - intros (e & -> & Hin)%list_elem_of_fmap. by apply Hnotin, Hf.
  - rewrite Heq, post_start_lookup_absent; done.
Qed.


Lemma unchanged_server_is_omitted_witness :
  let out := post_start Sample.peer Sample.world_a
               (Some ([] ++ ("a", Sample.cfg_a_reordered) :: [("c", Sample.cfg_plain)])) in
  out = post_start Sample.peer Sample.world_a (Some ([] ++ [("c", Sample.cfg_plain)]))
  ∧ ("a" ∉ s_id <$> response_success out.2)
  ∧ ("a" ∉ err_id <$> response_errors out.2)
  ∧ clients out.1 !! "a" = Some Sample.entry_a.
Proof.
  intros out.
  destruct (unchanged_server_is_omitted Sample.peer Sample.world_a []
              [("c", Sample.cfg_plain)] "a" Sample.cfg_a_reordered Sample.entry_a)
    as [Heq Hrest].
  - vm_compute. reflexivity.
  - by_compute.
  - repeat split. apply perm_swap.
  - split; [exact Heq|]. apply Hrest. by_compute.
Defined.

(** ** Requests for one server *)

Section OneServer.

Variable p : Peer.

Lemma post_start_single (w : World) (serverId : string) (config : Config) :
  post_start p w (Some [(serverId, config)])
  = let '(wb, t) := start_server_begin p w serverId config in
    let '(w2, results) := start_server_resume p (wb, mkResults [] []) t in
    if decide (length (errors results) = 0)
    then (w2, mkResponse 201 (AllStarted (success results)))
    else (w2, mkResponse 400 (SomeFailed (success results) (errors results))).
Proof.
  unfold post_start. cbn [start_servers_begin].
  destruct (start_server_begin p w serverId config) as [wb t].
  by destruct t.
Qed.

(** What a request for one server does when the registry has no entry that
    makes the callback return at once: the old client, if any, is closed,
    and [startClient] runs. *)
Lemma post_start_single_start (w : World) (serverId : string) (config : Config)
    (closed : list Call) :
  start_server_begin p w serverId config
  = (let w0 := mkWorld (clients w) (next_client w) (calls w ++ closed) in
     match startClient_begin p w0 serverId config with
     | (w1, inl message) => (w1, TThrown serverId message)
     | (w1, inr k) => (w1, TAwaiting k)
     end) →
  let out := post_start p w (Some [(serverId, config)]) in
  let command := default "" (cfg_command config) in
  let args := default [] (cfg_args config) in
  let transport := mkTransport command args (transport_env p (default [] (cfg_env config))) in
  let h := next_client w in
  if falsy (cfg_command config) then
    out = (mkWorld (clients w) h (calls w ++ closed),
           mkResponse 400
             (SomeFailed [] [failed_to_initialize serverId "Command is required"]))
  else
    calls out.1 = calls w ++ closed ++ [CConnect h transport]
    ∧ next_client out.1 = S h
    ∧ match race p h serverId command args with
      | Connected _ =>
          out.2 = mkResponse 201
                    (AllStarted [mkStarted serverId "MCP client started successfully"])
          ∧ ∃ entry, clients out.1 = <[serverId := entry]> (clients w)
              ∧ Bridge.config entry = config ∧ client entry = h
              ∧ Bridge.transport entry = transport
      | Failed _ message =>
          out.2 = mkResponse 400 (SomeFailed [] [failed_to_initialize serverId message])
          ∧ clients out.1 = clients w
      end.
Proof.
  intros Hb out command args transport h. subst out.
  rewrite post_start_single, Hb. unfold startClient_begin.
  destruct (falsy (cfg_command config)); [done|]. cbn -[race].
  unfold startClient_resume. cbn -[race]. fold command args transport h.
  destruct (race p h serverId command args) as [t|t m]; cbn.
  - rewrite decide_True by done. cbn. rewrite <- app_assoc.
    repeat split; try done. eexists. split; [done|]. done.
  - rewrite decide_False by done. cbn. rewrite <- app_assoc. done.
Qed.

Lemma start_server_begin_absent (w : World) (serverId : string) (config : Config) :
  clients w !! serverId = None →
  start_server_begin p w serverId config
  = (let w0 := mkWorld (clients w) (next_client w) (calls w ++ []) in
     match startClient_begin p w0 serverId config with
     | (w1, inl message) => (w1, TThrown serverId message)
     | (w1, inr k) => (w1, TAwaiting k)
     end).
Proof.
  intros Hn. unfold start_server_begin. rewrite Hn, app_nil_r. by destruct w.
Qed.

Lemma start_server_begin_changed (w : World) (serverId : string) (config : Config)
    (old : ClientEntry) :
  clients w !! serverId = Some old →
  hasConfigChanged (Bridge.config old) config = true →
  start_server_begin p w serverId config
  = (let w0 := mkWorld (clients w) (next_client w) (calls w ++ [CClose (client old)]) in
     match startClient_begin p w0 serverId config with
     | (w1, inl message) => (w1, TThrown serverId message)
     | (w1, inr k) => (w1, TAwaiting k)
     end).
Proof.
  intros Ho Hc. unfold start_server_begin. rewrite Ho. destruct old. simpl in *.
  by rewrite Hc.
Qed.

Lemma post_start_single_unchanged (w : World) (serverId : string) (config : Config)
    (entry : ClientEntry) :
  clients w !! serverId = Some entry →
  hasConfigChanged (Bridge.config entry) config = false →
  post_start p w (Some [(serverId, config)]) = (w, mkResponse 201 (AllStarted [])).
Proof.
  intros He Hc. rewrite post_start_single.
  by rewrite (start_server_begin_unchanged p w serverId config entry).
Qed.

End OneServer.

(** ** Starting twice *)

(** C2. When a server was started by one request and the next request asks
    for the same id with the same command, the same arguments in the same
    order and the same environment entries in any order, the registry holds
    the one entry of the first request, made with the one client that was
    constructed, and the second request changes nothing: no call on the
    SDK, no new client, the same registry, and an answer without the id. *)
Theorem start_twice_registers_once (p : Peer) (w w1 : World) (serverId : string)
    (config config' : Config) (resp1 : Response) :
  env_keys_unique config →
  same_config config config' →
  post_start p w (Some [(serverId, config)]) = (w1, resp1) →
  response_success resp1 = [mkStarted serverId "MCP client started successfully"] →
  (∃ entry, clients w1 = <[serverId := entry]> (clients w)
     ∧ Bridge.config entry = config ∧ client entry = next_client w)
  ∧ next_client w1 = S (next_client w)
  ∧ post_start p w1 (Some [(serverId, config')]) = (w1, mkResponse 201 (AllStarted [])).
Proof.
  intros Hnd Hsame Hpost Hsucc.
  assert (∃ closed,
    start_server_begin p w serverId config
    = (let w0 := mkWorld (clients w) (next_client w) (calls w ++ closed) in
       match startClient_begin p w0 serverId config with
       | (w1, inl message) => (w1, TThrown serverId message)
       | (w1, inr k) => (w1, TAwaiting k)
       end)) as [closed Hb].
  { destruct (clients w !! serverId) as [old|] eqn:Ho.
    - destruct (hasConfigChanged (Bridge.config old) config) eqn:Hc.
      + eexists. by apply start_server_begin_changed.
      + rewrite (post_start_single_unchanged p w serverId config old Ho Hc) in Hpost.
        by simplify_eq.
    - eexists. by apply start_server_begin_absent. }
  pose proof (post_start_single_start p w serverId config closed Hb) as Hone.
  rewrite Hpost in Hone. cbn zeta in Hone.
  destruct (falsy (cfg_command config)); [by simplify_eq|].
  destruct Hone as (_ & Hnext & Hrace). simpl in Hnext, Hrace.
  destruct (race p _ _ _ _) as [t|t m].
  - destruct Hrace as (_ & entry & Hreg & Hcfg & Hcl & _).
    split; [by exists entry|]. split; [done|].
    apply (post_start_single_unchanged p w1 serverId config' entry).
    + rewrite Hreg. apply lookup_insert_eq.
    + rewrite Hcfg. by apply hasConfigChanged_same.
  - destruct Hrace as [-> _]. done.
Qed.

Example cfg_a_env_order : same_config Sample.cfg_a Sample.cfg_a_reordered.
Proof. repeat split. apply perm_swap. Qed.

Example cfg_a_env_order_unchanged :
  hasConfigChanged Sample.cfg_a Sample.cfg_a_reordered = false.
Proof. vm_compute. reflexivity. Qed.

Example cfg_a_args_order : hasConfigChanged Sample.cfg_a Sample.cfg_b = true.
Proof. vm_compute. reflexivity. Qed.

Lemma start_twice_registers_once_witness :
  let first := post_start Sample.peer Sample.empty_world (Some [("a", Sample.cfg_a)]) in
  (∃ entry, clients first.1 = <[ "a" := entry ]> (clients Sample.empty_world)
     ∧ config entry = Sample.cfg_a ∧ client entry = 0)
  ∧ next_client first.1 = 1
  ∧ post_start Sample.peer first.1 (Some [("a", Sample.cfg_a_reordered)])
    = (first.1, mkResponse 201 (AllStarted [])).
Proof.
  intros first.
  apply (start_twice_registers_once Sample.peer Sample.empty_world first.1 "a"
           Sample.cfg_a Sample.cfg_a_reordered first.2).
  - by_compute.
  - repeat split. apply perm_swap.
  - subst first. by destruct (post_start _ _ _).
  - vm_compute. reflexivity.
Defined.

(** ** Replacing a config *)






(** ** DELETE /clients/:id *)

(** C4, as the code has it. Deleting a client that is registered calls
    [close()] on it once.  When the close succeeds the entry is removed and
    the id is absent afterwards; when the close throws, the handler answers
    500 with the message of the error and the entry stays in the
    registry. *)
Theorem delete_client_removes_after_close (p : Peer) (w : World) (id : string)
    (entry : ClientEntry) :
  clients w !! id = Some entry →
  let out := delete_client p w id in
  calls out.1 = calls w ++ [CClose (client entry)]
  ∧ next_client out.1 = next_client w
  ∧ match close_throws p (calls w) (client entry) with
    | None =>
        out.2 = mkResponse 200 (Message "Client deleted successfully")
        ∧ clients out.1 = delete id (clients w)
        ∧ clients out.1 !! id = None
    | Some message =>
        out.2 = mkResponse 500 (ErrorDetails "Failed to delete client" message)
        ∧ clients out.1 = clients w
        ∧ clients out.1 !! id = Some entry
    end.
Proof.
  intros He out. subst out. unfold delete_client. rewrite He.
  destruct (close_throws p (calls w) (client entry)) as [message|]; simpl.
  - done.
  - repeat split; try done. apply lookup_delete_eq.
Qed.

Lemma delete_client_removes_after_close_witness :
  calls (delete_client Sample.calm Sample.world_a "a").1
  = calls Sample.world_a ++ [CClose 0]
  ∧ next_client (delete_client Sample.calm Sample.world_a "a").1 = 1
  ∧ (delete_client Sample.calm Sample.world_a "a").2
    = mkResponse 200 (Message "Client deleted successfully")
  ∧ clients (delete_client Sample.calm Sample.world_a "a").1
    = delete "a" (clients Sample.world_a)
  ∧ clients (delete_client Sample.calm Sample.world_a "a").1 !! "a" = None.
Proof.
  exact (delete_client_removes_after_close Sample.calm Sample.world_a "a" Sample.entry_a
           eq_refl).
Defined.

(** C4 as stated does not hold: closing the client of ["a"] throws on the
    sample peer, and after the delete the id is still registered. *)
Lemma delete_client_keeps_entry_counterexample :
  clients Sample.world_a !! "a" = Some Sample.entry_a
  ∧ close_throws Sample.peer (calls Sample.world_a) (client Sample.entry_a)
    = Some "transport is stuck"
  ∧ (delete_client Sample.peer Sample.world_a "a").2
    = mkResponse 500 (ErrorDetails "Failed to delete client" "transport is stuck")
  ∧ clients (delete_client Sample.peer Sample.world_a "a").1 !! "a"
    = Some Sample.entry_a
  ∧ clients (delete_client Sample.peer Sample.world_a "a").1 !! "a" ≠ None.
Proof. repeat split; try (vm_compute; reflexivity). discriminate. Qed.

(** ** Unknown ids *)

(** C8, as the code has it. For an id that is not registered, a restart and
    a delete answer 404 "Client not found", and so does a tool call with a
    tool name; a tool call without a tool name answers 400 "Tool name is
    required" before the id is looked up.  None of them changes the
    state. *)
Theorem unknown_id_rejected (p : Peer) (w : World) (id : string) :
  clients w !! id = None →
  post_restart p w id = (w, mkResponse 404 (ErrorOnly "Client not found"))
  ∧ delete_client p w id = (w, mkResponse 404 (ErrorOnly "Client not found"))
  ∧ ∀ name toolArgs,
      post_call_tools p w id name toolArgs
      = (w, if falsy name
            then mkResponse 400 (ErrorOnly "Tool name is required")
            else mkResponse 404 (ErrorOnly "Client not found")).
Proof.
  intros Hn. unfold post_restart, delete_client, post_call_tools. rewrite Hn.
  repeat split. intros name toolArgs. by destruct (falsy name).
Qed.

Lemma unknown_id_rejected_witness :
  post_restart Sample.peer Sample.world_a "ghost"
  = (Sample.world_a, mkResponse 404 (ErrorOnly "Client not found"))
  ∧ delete_client Sample.peer Sample.world_a "ghost"
    = (Sample.world_a, mkResponse 404 (ErrorOnly "Client not found"))
  ∧ post_call_tools Sample.peer Sample.world_a "ghost" (Some "echo") None
    = (Sample.world_a, mkResponse 404 (ErrorOnly "Client not found")).
Proof.
  destruct (unknown_id_rejected Sample.peer Sample.world_a "ghost" eq_refl)
    as (Hr & Hd & Hc).
  split; [exact Hr|]. split; [exact Hd|]. exact (Hc (Some "echo") None).
Defined.

(** C8 as stated does not hold: a tool call without a tool name on an id
    that was never started is answered with 400 "Tool name is required",
    not with 404 "Client not found". *)
Lemma unknown_id_tool_name_counterexample :
  clients Sample.empty_world !! "ghost" = None
  ∧ post_call_tools Sample.peer Sample.empty_world "ghost" (Some "") (Some (JObj []))
    = (Sample.empty_world, mkResponse 400 (ErrorOnly "Tool name is required"))
  ∧ (post_call_tools Sample.peer Sample.empty_world "ghost" (Some "") (Some (JObj []))).2
    ≠ not_found.
Proof. repeat split. discriminate. Qed.

(** ** POST /restart/:id *)

(** C9, as the code has it. Restarting a registered id calls [close()] on
    its client.  When the close throws, the handler answers 500 and does
    nothing else: the entry stays and no client is constructed.  When the
    close succeeds, the entry is removed and [startClient] runs on the config
    stored in the entry, whatever that config is: with a command in it a new
    client is constructed and connected, and the id is registered again with
    the same config when the connect succeeds and is absent when it
    fails. *)
Theorem restart_after_close (p : Peer) (w : World) (id : string) (entry : ClientEntry) :
  clients w !! id = Some entry →
  let out := post_restart p w id in
  let closed := mkWorld (clients w) (next_client w) (calls w ++ [CClose (client entry)]) in
  match close_throws p (calls w) (client entry) with
  | Some message =>
      out = (closed, mkResponse 500 (ErrorDetails "Failed to restart client" message))
  | None =>
      let removed := set_clients closed (delete id (clients w)) in
      let started := startClient p removed id (config entry) in
      out.1 = started.1
      ∧ out.2 = match started.2 with
                | inr result =>
                    mkResponse 200
                      (Restarted ("Client " +:+ id +:+ " restarted successfully") result)
                | inl message =>
                    mkResponse 500 (ErrorDetails "Failed to restart client" message)
                end
      ∧ (falsy (cfg_command (config entry)) = false →
           next_client out.1 = S (next_client w)
           ∧ (∃ t, calls out.1
                   = calls w ++ [CClose (client entry); CConnect (next_client w) t])
           ∧ match started.2 with
             | inr _ =>
                 ∃ entry', clients out.1 !! id = Some entry'
                   ∧ config entry' = config entry ∧ client entry' = next_client w
             | inl _ => clients out.1 !! id = None
             end)
  end.
Proof.
  intros He out closed. subst out. unfold post_restart. rewrite He.
  fold (record_call w (CClose (client entry))).
  destruct (close_throws p (calls w) (client entry)) as [message|]; [done|].
  cbn zeta.
  change (set_clients (record_call w (CClose (client entry)))
            (delete id (clients (record_call w (CClose (client entry))))))
    with (set_clients closed (delete id (clients w))).
  set (removed := set_clients closed (delete id (clients w))).
  match goal with |- ?o.1 = _ ∧ _ =>
    assert (o.1 = (startClient p removed id (config entry)).1) as H1
      by (by destruct (startClient p removed id (config entry)) as [? [?|?]]);
    rewrite !H1
  end.
  split; [done|].
  split; [by destruct (startClient p removed id (config entry)) as [? [?|?]]|].
  intros Hf.
  unfold startClient, startClient_begin. rewrite Hf. cbn zeta.
  unfold startClient_resume. cbn -[race].
  destruct (race p _ _ _ _) as [t|t m]; cbn.
  - split; [done|]. split; [rewrite <- app_assoc; eauto|].
    eexists. rewrite lookup_insert_eq. done.
  - split; [done|]. split; [rewrite <- app_assoc; eauto|]. apply lookup_delete_eq.
Qed.

Lemma restart_after_close_witness :
  next_client (post_restart Sample.calm Sample.world_a "a").1 = 2
  ∧ (∃ t, calls (post_restart Sample.calm Sample.world_a "a").1
          = calls Sample.world_a ++ [CClose 0; CConnect 1 t])
  ∧ ∃ entry', clients (post_restart Sample.calm Sample.world_a "a").1 !! "a" = Some entry'
      ∧ config entry' = Sample.cfg_a ∧ client entry' = 1.
Proof.
  pose proof (restart_after_close Sample.calm Sample.world_a "a" Sample.entry_a eq_refl)
    as H.
  cbn zeta in H.
  change (close_throws Sample.calm (calls Sample.world_a) (client Sample.entry_a))
    with (@None string) in H.
  cbv iota in H. destruct H as (_ & _ & H). exact (H eq_refl).
Defined.

(** C9 as stated does not hold: closing the client of ["a"] throws on the
    sample peer, and the restart stops there: it answers 500, no new client
    is constructed or connected, and the entry of the old client stays. *)
Lemma restart_blocked_by_close_counterexample :
  clients Sample.world_a !! "a" = Some Sample.entry_a
  ∧ post_restart Sample.peer Sample.world_a "a"
    = (mkWorld (clients Sample.world_a) (next_client Sample.world_a)
         (calls Sample.world_a ++ [CClose 0]),
       mkResponse 500 (ErrorDetails "Failed to restart client" "transport is stuck"))
  ∧ next_client (post_restart Sample.peer Sample.world_a "a").1
    = next_client Sample.world_a
  ∧ clients (post_restart Sample.peer Sample.world_a "a").1 !! "a"
    = Some Sample.entry_a.
Proof. repeat split; vm_compute; reflexivity. Qed.

(** * Further properties of the code *)

(** ** The comparison of the start handler *)

(** X1. The start handler takes a submitted config for unchanged exactly
    when it has the command of the stored one, the same arguments in the
    same order and the same environment entries, in whatever order the
    entries are written. *)
Theorem config_comparison_exact (stored submitted : Config) :
  env_keys_unique stored → env_keys_unique submitted →
  hasConfigChanged stored submitted = false ↔ same_config stored submitted.
Proof. apply hasConfigChanged_false_iff. Qed.

Lemma config_comparison_exact_witness :
  hasConfigChanged Sample.cfg_a Sample.cfg_a_reordered = false
  ↔ same_config Sample.cfg_a Sample.cfg_a_reordered.
Proof.
  apply (config_comparison_exact Sample.cfg_a Sample.cfg_a_reordered); by_compute.
Defined.

(** ** Starting, reading and deleting one client *)

(** X2. After a start that succeeded, [GET /clients/:id] answers 200 with the
    id, with the command and the arguments of the config (no arguments when
    the config has none) and with the time of the registration; the answer
    for any other id is what it was before. *)
Theorem get_client_after_start (p : Peer) (w w' : World) (clientId : string)
    (config : Config) (result : Started) :
  startClient p w clientId config = (w', inr result) →
  get_client w' clientId
  = mkRead 200
      (ClientSummary
         (mkSummary clientId (default "" (cfg_command config))
            (default [] (cfg_args config)) (now p (calls w'))))
  ∧ ∀ other, other ≠ clientId → get_client w' other = get_client w other.
Proof.
  unfold startClient. destruct (startClient_begin p w clientId config) as [w1 [m|k]] eqn:Hb;
    [done|].
  apply startClient_begin_pending in Hb as (_ & Hk & Hw1).
  unfold startClient_resume. destruct (race p _ _ _ _); [|done].
  intros [= <- _]. rewrite Hk, Hw1. unfold get_client. cbn. split.
  - by rewrite lookup_insert_eq.
  - intros other Hne. by rewrite lookup_insert_ne.
Qed.

Lemma get_client_after_start_witness :
  get_client Sample.world_a "a"
  = mkRead 200 (ClientSummary (mkSummary "a" "npx" ["-y"; "server-a"] 1))
  ∧ ∀ other, other ≠ "a" → get_client Sample.world_a other
                            = get_client Sample.empty_world other.
Proof.
  exact (get_client_after_start Sample.peer Sample.empty_world Sample.world_a "a"
           Sample.cfg_a (mkStarted "a" "MCP client started successfully") eq_refl).
Defined.

(** X3. Starting a client under an id that is free and then deleting it,
    when its close succeeds, gives back the registry as it was before the
    start, and the id is answered with 404 again. *)
Theorem start_then_delete (p : Peer) (w w1 : World) (clientId : string)
    (config : Config) (result : Started) :
  clients w !! clientId = None →
  startClient p w clientId config = (w1, inr result) →
  close_throws p (calls w1) (next_client w) = None →
  let out := delete_client p w1 clientId in
  clients out.1 = clients w
  ∧ out.2 = mkResponse 200 (Message "Client deleted successfully")
  ∧ get_client out.1 clientId = mkRead 404 (ReadError "Client not found").
Proof.
  intros Hfree Hstart Hclose out. subst out. revert Hstart. unfold startClient.
  destruct (startClient_begin p w clientId config) as [w0 [m|k]] eqn:Hb; [done|].
  apply startClient_begin_pending in Hb as (_ & Hk & Hw0).
  intros Hr. destruct (startClient_resume_started p w0 k w1 result Hr)
    as (_ & _ & _ & _ & entry & Hreg & _ & Hcl & _).
  assert (p_id k = clientId) as Hid by (by rewrite Hk).
  assert (client entry = next_client w) as Hh by (by rewrite Hcl, Hk).
  assert (clients w1 !! clientId = Some entry) as Hl
    by (by rewrite Hreg, Hid, lookup_insert_eq).
  unfold delete_client, get_client. rewrite Hl, Hh, Hclose. simpl.
  rewrite Hreg, Hid, Hw0. simpl. rewrite delete_insert_eq.
  split; [by apply delete_id|]. split; [done|]. by rewrite lookup_delete_eq.
Qed.

Lemma start_then_delete_witness :
  clients (delete_client Sample.calm
             (startClient Sample.calm Sample.empty_world "a" Sample.cfg_a).1 "a").1
  = clients Sample.empty_world
  ∧ (delete_client Sample.calm
       (startClient Sample.calm Sample.empty_world "a" Sample.cfg_a).1 "a").2
    = mkResponse 200 (Message "Client deleted successfully")
  ∧ get_client
      (delete_client Sample.calm
         (startClient Sample.calm Sample.empty_world "a" Sample.cfg_a).1 "a").1 "a"
    = mkRead 404 (ReadError "Client not found").
Proof.
  exact (start_then_delete Sample.calm Sample.empty_world
           (startClient Sample.calm Sample.empty_world "a" Sample.cfg_a).1 "a"
           Sample.cfg_a (mkStarted "a" "MCP client started successfully")
           eq_refl eq_refl eq_refl).
Defined.

(** ** An invariant of the registry *)

Section RegistryInvariant.

Variable p : Peer.

Lemma registry_ok_mono (w w' : World) :
  registry_ok w →
  (∀ key e, clients w' !! key = Some e → clients w !! key = Some e) →
  next_client w ≤ next_client w' →
  registry_ok w'.
Proof.
  intros [Hentries Hdistinct] Hsub Hle. split.
  - intros key e He. destruct (Hentries key e (Hsub _ _ He)) as (?&?&?&?&?&?&?&?).
    repeat split; try done. lia.
  - intros key key' e e' He He'. by apply Hdistinct; apply Hsub.
Qed.

Lemma startClient_begin_ok (w w' : World) (clientId : string) (config : Config)
    (k : Pending) :
  startClient_begin p w clientId config = (w', inr k) →
  pending_ok k ∧ p_client k = next_client w ∧ next_client w' = S (next_client w)
  ∧ p_id k = clientId.
Proof.
  intros (Hf & -> & ->)%startClient_begin_pending. by repeat split.
Qed.

Lemma start_server_begin_next (w : World) (serverId : string) (config : Config) :
  let out := start_server_begin p w serverId config in
  match out.2 with
  | TAwaiting k =>
      pending_ok k ∧ p_client k = next_client w ∧ next_client out.1 = S (next_client w)
  | _ => next_client out.1 = next_client w
  end.
Proof.
  unfold start_server_begin.
  destruct (clients w !! serverId) as [[]|]; [destruct (hasConfigChanged _ _)|]; simpl;
    try done;
    match goal with
    | |- context [startClient_begin p ?w0 serverId config] =>
        destruct (startClient_begin p w0 serverId config) as [? [?|k]] eqn:Hb
    end; simpl.
  all: try (by apply startClient_begin_thrown in Hb as (-> & _)).
  all: by apply startClient_begin_ok in Hb as (? & ? & ? & _).
Qed.

Lemma start_servers_begin_next (servers : list (string * Config)) : ∀ w,
  let out := start_servers_begin p w servers in
  next_client w ≤ next_client out.1
  ∧ NoDup (p_client <$> awaiting out.2)
  ∧ ∀ k, k ∈ awaiting out.2 →
      pending_ok k ∧ next_client w ≤ p_client k < next_client out.1.
Proof.
  induction servers as [|[serverId config] rest IH]; intros w; simpl.
  { split; [done|]. split; [constructor|]. by intros k ?%elem_of_nil. }
  pose proof (start_server_begin_next w serverId config) as Hhead.
  destruct (start_server_begin p w serverId config) as [w1 t]. simpl in Hhead.
  destruct (IH w1) as (Hle & Hnd & Hall).
  destruct (start_servers_begin p w1 rest) as [w2 ts]. simpl in *.
  destruct t as [| |k]; unfold awaiting; simpl; fold (awaiting ts).
  - rewrite <- Hhead. split; [done|]. split; [done|]. intros k Hk.
    by destruct (Hall k Hk).
  - rewrite <- Hhead. split; [done|]. split; [done|]. intros k Hk.
    by destruct (Hall k Hk).
  - destruct Hhead as (Hok & Hh & Hn). split; [lia|]. split.
    + apply NoDup_cons. split; [|done].
      intros (k' & Heq & Hk')%list_elem_of_fmap. destruct (Hall k' Hk') as [_ ?]. lia.
    + intros k' [->|Hk']%elem_of_cons; [split; [done|lia]|].
      destruct (Hall k' Hk') as [? ?]. split; [done|lia].
Qed.

Lemma start_server_resume_ok (w : World) (r : Results) (t : Task) :
  registry_ok w →
  (∀ k, t = TAwaiting k →
     pending_ok k ∧ p_client k < next_client w
     ∧ ∀ key e, clients w !! key = Some e → client e ≠ p_client k) →
  registry_ok (start_server_resume p (w, r) t).1
  ∧ next_client (start_server_resume p (w, r) t).1 = next_client w
  ∧ ∀ key e, clients (start_server_resume p (w, r) t).1 !! key = Some e →
      clients w !! key = Some e ∨ ∃ k, t = TAwaiting k ∧ client e = p_client k.
Proof.
  intros Hok Ht. destruct t as [|sid m|k]; simpl; [by auto..|].
  destruct (Ht k eq_refl) as ((Hf & Hc & Ha & He & Htc & Hta) & Hlt & Hfresh).
  unfold startClient_resume. destruct (race p _ _ _ _) as [at_ms|at_ms m]; simpl;
    [|by auto].
  destruct Hok as [Hentries Hdistinct]. unfold set_clients.
  split; [split|split; [done|]]; cbn [clients next_client]; unfold entry_ok;
    cbn [clients next_client].
  - intros key e. rewrite lookup_insert. case_decide as Hkey.
    + intros [= <-]. subst key. by repeat split.
    + apply Hentries.
  - intros key key' e e'. rewrite !lookup_insert.
    repeat case_decide; intros ? ? Heq; simplify_eq/=; try done.
    + exfalso. by eapply Hfresh.
    + exfalso. by eapply Hfresh.
    + by eapply Hdistinct.
  - intros key e. rewrite lookup_insert. case_decide.
    + intros [= <-]. right. by exists k.
    + by left.
Qed.

Lemma foldl_resume_ok (ts : list Task) : ∀ w r,
  registry_ok w →
  NoDup (p_client <$> awaiting ts) →
  (∀ k, k ∈ awaiting ts →
     pending_ok k ∧ p_client k < next_client w
     ∧ ∀ key e, clients w !! key = Some e → client e ≠ p_client k) →
  registry_ok (foldl (start_server_resume p) (w, r) ts).1.
Proof.
  induction ts as [|t ts IH]; intros w r Hok Hnd Hall; [done|].
  cbn [foldl].
  assert (∀ k, t = TAwaiting k →
     pending_ok k ∧ p_client k < next_client w
     ∧ ∀ key e, clients w !! key = Some e → client e ≠ p_client k) as Ht.
  { intros k ->. apply Hall. unfold awaiting. simpl. by left. }
  destruct (start_server_resume_ok w r t Hok Ht) as (Hok1 & Hn1 & Hfrom).
  destruct (start_server_resume p (w, r) t) as [w1 r1]. simpl in Hok1, Hn1, Hfrom.
  assert (awaiting (t :: ts) = match t with TAwaiting k => k :: awaiting ts | _ => awaiting ts end)
    as Haw by (by destruct t).
  rewrite Haw in Hnd, Hall.
  apply IH; [done| |].
  - destruct t; [done..|]. by apply NoDup_cons in Hnd as [_ ?].
  - intros k Hk.
    assert (k ∈ match t with TAwaiting k0 => k0 :: awaiting ts | _ => awaiting ts end)
      as Hk' by (destruct t; [done..|by right]).
    destruct (Hall k Hk') as (Hpk & Hlt & Hfresh). split; [done|]. split; [lia|].
    intros key e He. destruct (Hfrom key e He) as [Hold|(k0 & -> & ->)].
    + by eapply Hfresh.
    + apply NoDup_cons in Hnd as [Hnotin _]. intros Heq. apply Hnotin.
      apply list_elem_of_fmap. by exists k.
Qed.

Lemma post_start_ok (w : World) (mcpServers : option (list (string * Config))) :
  registry_ok w → registry_ok (post_start p w mcpServers).1.
Proof.
  intros Hok. destruct mcpServers as [servers|]; [|done].
  destruct (post_start_spec p w servers) as (-> & _).
  pose proof (start_servers_begin_clients p servers w) as Hc.
  destruct (start_servers_begin_next servers w) as (Hle & Hnd & Hall).
  destruct (start_servers_begin p w servers) as [w1 ts]. simpl in *.
  assert (registry_ok w1) as Hok1.
  { eapply registry_ok_mono; [exact Hok| |done]. intros ??. by rewrite Hc. }
  assert (awaiting (resume_order p ts) ≡ₚ awaiting ts) as Hperm
    by (unfold awaiting; by rewrite resume_order_perm).
  apply foldl_resume_ok; [done|by rewrite Hperm|].
  intros k Hk. rewrite Hperm in Hk. destruct (Hall k Hk) as (Hpk & Hge & Hlt).
  split; [done|]. split; [done|]. intros key e He. rewrite Hc in He.
  destruct Hok as [Hentries _]. destruct (Hentries key e He) as (_&_&_&_&_&_&_&?). lia.
Qed.

Lemma startClient_ok (w : World) (clientId : string) (config : Config) :
  registry_ok w → registry_ok (startClient p w clientId config).1.
Proof.
  intros Hok. unfold startClient.
  destruct (startClient_begin p w clientId config) as [w1 [m|k]] eqn:Hb.
  { by apply startClient_begin_thrown in Hb as (-> & _). }
  pose proof Hb as (Hpk & Hh & Hn & _)%startClient_begin_ok.
  apply startClient_begin_pending in Hb as (_ & _ & Hw1).
  assert (registry_ok w1) as Hok1.
  { eapply registry_ok_mono; [exact Hok| |lia]. intros ??. by rewrite Hw1. }
  destruct (start_server_resume_ok w1 (mkResults [] []) (TAwaiting k) Hok1) as (H & _).
  - intros ? [= <-]. split; [done|]. split; [lia|].
    intros key e He. rewrite Hw1 in He. simpl in He.
    destruct Hok as [Hentries _]. destruct (Hentries key e He) as (_&_&_&_&_&_&_&?). lia.
  - simpl in H. by destruct (startClient_resume p w1 k) as [? [?|?]].
Qed.

Lemma serve_ok (w : World) (r : Request) :
  registry_ok w → registry_ok (serve p w r).1.
Proof.
  intros Hok. destruct r as [ms|clientId|clientId name toolArgs|clientId]; simpl.
  - by apply post_start_ok.
  - unfold post_restart. destruct (clients w !! clientId) as [e|] eqn:He; [|done].
    destruct (close_throws p _ _).
    { simpl. eapply registry_ok_mono; [exact Hok|done|done]. }
    match goal with |- context [startClient p ?w2 clientId (config e)] =>
      assert (registry_ok w2) as Hok2;
      [|pose proof (startClient_ok w2 clientId (config e) Hok2);
        by destruct (startClient p w2 clientId (config e)) as [? [?|?]]] end.
    eapply registry_ok_mono; [exact Hok| |done]. simpl.
    intros key e0 [_ ?]%lookup_delete_Some. done.
  - unfold post_call_tools. destruct (falsy name); [done|].
    destruct (clients w !! clientId); [|done].
    destruct (callTool_result p _ _ _ _); simpl;
      (eapply registry_ok_mono; [exact Hok|done|done]).
  - unfold delete_client. destruct (clients w !! clientId) as [e|]; [|done].
    destruct (close_throws p _ _); simpl.
    + eapply registry_ok_mono; [exact Hok|done|done].
    + eapply registry_ok_mono; [exact Hok| |done]. simpl.
      intros key e0 [_ ?]%lookup_delete_Some. done.
Qed.

End RegistryInvariant.

(** X4. Whatever requests are served one after the other, every entry of the
    registry stays stored under its own id, with the command, the arguments
    and the environment of its stored config, which has a command; and no
    client object is registered under two ids. *)
Theorem registry_invariant (p : Peer) (w : World) (rs : list Request) :
  registry_ok w → registry_ok (serve_all p w rs).
Proof.
  revert w. induction rs as [|r rs IH]; intros w Hok; [done|].
  unfold serve_all. cbn [foldl]. apply IH. by apply serve_ok.
Qed.

Lemma registry_invariant_witness :
  registry_ok
    (serve_all Sample.peer Sample.empty_world
       [PostStart (Some Sample.batch); PostRestart "a"; DeleteClient "c"]).
Proof.
  apply (registry_invariant Sample.peer Sample.empty_world). split.
  - intros key e He. unfold Sample.empty_world in He. simpl in He.
    by rewrite lookup_empty in He.
  - intros key key' e e' He. unfold Sample.empty_world in He. simpl in He.
    by rewrite lookup_empty in He.
Defined.

(** ** Restart in a reachable state *)

(** X5. In a state where the invariant of the registry holds, a restart of a
    registered id fails only because its close throws or because the new
    connect fails or times out, never for want of a command: after a close
    that succeeds a new client is constructed and connected with the command
    and the arguments of the entry; when the connect succeeds the id is
    registered with the same config, command, arguments and environment and
    with the new client, and when it fails the id is absent.  The other
    entries stay as they are. *)
Theorem restart_in_reachable_state (p : Peer) (w : World) (clientId : string)
    (e : ClientEntry) :
  registry_ok w →
  clients w !! clientId = Some e →
  let out := post_restart p w clientId in
  (∀ other, other ≠ clientId → clients out.1 !! other = clients w !! other)
  ∧ match close_throws p (calls w) (client e) with
    | Some message =>
        out = (record_call w (CClose (client e)),
               mkResponse 500 (ErrorDetails "Failed to restart client" message))
    | None =>
        next_client out.1 = S (next_client w)
        ∧ match race p (next_client w) clientId (command e) (args e) with
          | Connected _ =>
              status out.2 = 200
              ∧ ∃ e', clients out.1 !! clientId = Some e'
                  ∧ config e' = config e ∧ command e' = command e
                  ∧ args e' = args e ∧ env e' = env e
                  ∧ client e' = next_client w ∧ client e' ≠ client e
          | Failed _ message =>
              out.2 = mkResponse 500 (ErrorDetails "Failed to restart client" message)
              ∧ clients out.1 !! clientId = None
          end
    end.
Proof.
  intros [Hentries _] He out. subst out.
  destruct (Hentries clientId e He) as (_ & Hf & Hc & Ha & Henv & _ & _ & Hlt).
  unfold post_restart. rewrite He.
  destruct (close_throws p (calls w) (client e)) as [message|]; [by split|].
  unfold startClient, startClient_begin. rewrite Hf. cbn zeta.
  unfold startClient_resume. cbn -[race]. rewrite <- Hc, <- Ha.
  destruct (race p (next_client w) clientId (command e) (args e)) as [t|t m]; cbn.
  - split; [intros other Hne; by rewrite lookup_insert_ne, lookup_delete_ne|].
    split; [done|]. split; [done|]. eexists. rewrite lookup_insert_eq.
    split; [done|]. cbn. repeat split; try done. lia.
  - split; [intros other Hne; by rewrite lookup_delete_ne|].
    split; [done|]. split; [done|]. apply lookup_delete_eq.
Qed.

(** ** What a start request touches *)

Section Footprint.

Variable p : Peer.



End Footprint.

Lemma restart_in_reachable_state_witness :
  let out := post_restart Sample.calm Demo.world_ac "a" in
  (∀ other, other ≠ "a" → clients out.1 !! other = clients Demo.world_ac !! other)
  ∧ next_client out.1 = 3
  ∧ status out.2 = 200
  ∧ ∃ e', clients out.1 !! "a" = Some e'
      ∧ config e' = Sample.cfg_a ∧ command e' = "npx"
      ∧ args e' = ["-y"; "server-a"] ∧ env e' = [("A", "1"); ("B", "2")]
      ∧ client e' = 2 ∧ client e' ≠ 0.
Proof.
  intros out.
  assert (registry_ok Demo.world_ac) as Hok.
  { apply (post_start_ok Sample.calm Sample.empty_world (Some Sample.batch)). split.
    - intros key e He. unfold Sample.empty_world in He. simpl in He.
      by rewrite lookup_empty in He.
    - intros key key' e e' He. unfold Sample.empty_world in He. simpl in He.
      by rewrite lookup_empty in He. }
  assert (∃ e, clients Demo.world_ac !! "a" = Some e ∧ client e = 0
               ∧ config e = Sample.cfg_a ∧ command e = "npx"
               ∧ args e = ["-y"; "server-a"] ∧ env e = [("A", "1"); ("B", "2")])
    as (e & He & Hcl & Hcfg & Hc & Ha & Henv).
  { eexists. split; [vm_compute; reflexivity|]. by repeat split. }
  pose proof (restart_in_reachable_state Sample.calm Demo.world_ac "a" e Hok He) as H.
  cbn zeta in H. fold out in H. destruct H as [Hother H]. split; [exact Hother|].
  change (close_throws Sample.calm (calls Demo.world_ac) (client e))
    with (@None string) in H.
  cbv iota in H. destruct H as [Hn H]. split; [exact Hn|].
  change (race Sample.calm (next_client Demo.world_ac) "a" (command e) (args e))
    with (Connected 5) in H.
  cbv iota in H. destruct H as (Hst & e' & He' & H1 & H2 & H3 & H4 & H5 & H6).
  split; [exact Hst|]. exists e'. rewrite H1, H2, H3, H4, Hcfg, Hc, Ha, Henv.
  rewrite Hcl in H6. repeat split; done.
Defined.



(** ** The answer of a start request *)

Section Accounting.

Variable p : Peer.

Lemma start_server_begin_returned (w : World) (serverId : string) (config : Config) :
  is_returned (start_server_begin p w serverId config).2 = unchanged w (serverId, config).
Proof.
  unfold start_server_begin, unchanged. simpl.
  destruct (clients w !! serverId) as [[]|]; [destruct (hasConfigChanged _ _)|]; simpl;
    try done;
    match goal with
    | |- context [startClient_begin p ?w0 serverId config] =>
        by destruct (startClient_begin p w0 serverId config) as [? [?|?]]
    end.
Qed.

Lemma unchanged_clients (w w0 : World) (server : string * Config) :
  clients w0 = clients w → unchanged w0 server = unchanged w server.
Proof. unfold unchanged. by intros ->. Qed.

Lemma start_servers_begin_count (servers : list (string * Config)) : ∀ w0 w,
  clients w0 = clients w →
  length (start_servers_begin p w0 servers).2 = length servers
  ∧ length (List.filter is_returned (start_servers_begin p w0 servers).2)
    = length (List.filter (unchanged w) servers).
Proof.
  induction servers as [|[serverId config] rest IH]; intros w0 w Hc; [done|].
  cbn [start_servers_begin List.filter].
  pose proof (start_server_begin_returned w0 serverId config) as Hret.
  pose proof (start_server_begin_clients p w0 serverId config) as Hc1.
  destruct (start_server_begin p w0 serverId config) as [w1 t]. simpl in Hret, Hc1.
  destruct (IH w1 w) as [Hlen Hcount]; [congruence|].
  destruct (start_servers_begin p w1 rest) as [w2 ts]. simpl in *.
  rewrite Hret, (unchanged_clients w w0) by done. split; [by rewrite Hlen|].
  destruct (unchanged w (serverId, config)); simpl; by rewrite Hcount.
Qed.

Lemma started_of_cons (t : Task) (ts : list Task) :
  started_of p (t :: ts)
  = match task_result p t with
    | Some (inl s) => s :: started_of p ts
    | _ => started_of p ts
    end.
Proof. unfold started_of. simpl. by destruct (task_result p t) as [[]|]. Qed.

Lemma failures_of_cons (t : Task) (ts : list Task) :
  failures_of p (t :: ts)
  = match task_result p t with
    | Some (inr e) => e :: failures_of p ts
    | _ => failures_of p ts
    end.
Proof. unfold failures_of. simpl. by destruct (task_result p t) as [[]|]. Qed.

Lemma results_count (ts : list Task) :
  length (started_of p ts) + length (failures_of p ts) + length (List.filter is_returned ts)
  = length ts.
Proof.
  induction ts as [|t ts IH]; [done|].
  rewrite started_of_cons, failures_of_cons. cbn [List.filter length].
  destruct t as [|sid m|k]; cbn [task_result is_returned length]; [lia|lia|].
  destruct (race p _ _ _ _); cbn [length]; lia.
Qed.

Lemma post_start_status (w : World) (servers : list (string * Config)) :
  let resp := (post_start p w (Some servers)).2 in
  (status resp = 201 ↔ response_errors resp = [])
  ∧ (status resp = 400 ↔ response_errors resp ≠ []).
Proof.
  unfold post_start. destruct (start_servers_begin p w servers) as [w1 ts].
  destruct (foldl _ _ _) as [w2 results]. case_decide as Hlen; simpl.
  - split; [done|]. split; [done|]. unfold response_errors. simpl. done.
  - unfold response_errors. simpl. split; split; try done.
    + intros Heq. by rewrite Heq in Hlen.
    + intros _ Heq. by rewrite Heq in Hlen.
Qed.

Lemma start_servers_begin_all_unchanged (servers : list (string * Config)) (w : World) :
  (∀ server, server ∈ servers → unchanged w server = true) →
  start_servers_begin p w servers = (w, replicate (length servers) TReturned).
Proof.
  induction servers as [|[serverId config] rest IH]; intros Hall; [done|].
  cbn [start_servers_begin length replicate].
  assert (unchanged w (serverId, config) = true) as Hu by (apply Hall; by left).
  unfold unchanged in Hu. simpl in Hu.
  destruct (clients w !! serverId) as [e|] eqn:He; [|done].
  apply negb_true_iff in Hu.
  rewrite (start_server_begin_unchanged p w serverId config e He Hu).
  rewrite IH; [done|]. intros server Hin. apply Hall. by right.
Qed.

Lemma post_start_all_unchanged (servers : list (string * Config)) (w : World) :
  (∀ server, server ∈ servers → unchanged w server = true) →
  post_start p w (Some servers) = (w, mkResponse 201 (AllStarted [])).
Proof.
  intros Hall. unfold post_start.
  rewrite (start_servers_begin_all_unchanged servers w Hall).
  generalize (length servers). intros n.
  assert (resume_order p (replicate n TReturned) = replicate n TReturned) as ->.
  { unfold resume_order.
    assert (List.filter is_awaiting (replicate n TReturned) = []) as ->
      by (induction n; [done|by simpl]).
    assert (List.filter (fun t => negb (is_awaiting t)) (replicate n TReturned)
            = replicate n TReturned) as ->
      by (induction n as [|n IH]; [done|simpl; by rewrite IH]).
    by rewrite app_nil_r. }
  assert (foldl (start_server_resume p) (w, mkResults [] []) (replicate n TReturned)
          = (w, mkResults [] [])) as ->
    by (induction n as [|n IH]; [done|by simpl]).
  done.
Qed.

End Accounting.

(** X7. Every server of a start request is accounted for once: the servers
    reported as started, those reported as failed and those left out because
    their stored config was taken for the submitted one add up to the servers
    of the request.  The answer is 201 exactly when no failure is reported
    and 400 exactly when one is. *)
Theorem post_start_accounts (p : Peer) (w w' : World) (servers : list (string * Config))
    (resp : Response) :
  post_start p w (Some servers) = (w', resp) →
  length (response_success resp) + length (response_errors resp)
    + length (List.filter (unchanged w) servers) = length servers
  ∧ (status resp = 201 ↔ response_errors resp = [])
  ∧ (status resp = 400 ↔ response_errors resp ≠ []).
Proof.
  intros Hpost. destruct (post_start_spec p w servers) as (_ & Hs & He & _).
  pose proof (post_start_status p w servers) as Hst.
  rewrite Hpost in Hs, He, Hst. simpl in Hs, He, Hst. split; [|done].
  destruct (start_servers_begin_count p servers w w eq_refl) as [Hlen Hcount].
  rewrite Hs, He, <- Hcount, <- Hlen.
  rewrite <- (results_count p (start_servers_begin p w servers).2).
  unfold started_of, failures_of. by rewrite !resume_order_perm.
Qed.

Lemma post_start_accounts_witness :
  let resp := (post_start Sample.calm Sample.empty_world (Some Sample.batch)).2 in
  length (response_success resp) + length (response_errors resp)
    + length (List.filter (unchanged Sample.empty_world) Sample.batch) = 3
  ∧ (status resp = 201 ↔ response_errors resp = [])
  ∧ (status resp = 400 ↔ response_errors resp ≠ []).
Proof.
  intros resp.
  apply (post_start_accounts Sample.calm Sample.empty_world
           (post_start Sample.calm Sample.empty_world (Some Sample.batch)).1
           Sample.batch resp).
  subst resp. by destruct (post_start _ _ _).
Defined.

(** X8. A start request whose answer reports no failure can be repeated: the
    same request, sent again, finds every server registered with its config,
    changes nothing and answers 201 with an empty list. *)
Theorem post_start_repeatable (p : Peer) (w w1 : World) (servers : list (string * Config))
    (resp1 : Response) :
  keys_unique servers →
  post_start p w (Some servers) = (w1, resp1) →
  response_errors resp1 = [] →
  post_start p w1 (Some servers) = (w1, mkResponse 201 (AllStarted [])).
Proof.
  intros Hnd Hpost Hnoerr. apply post_start_all_unchanged.
  intros [serverId config] Hin.
  destruct (post_start_spec p w servers) as (Hw & _ & He & _).
  rewrite Hpost in Hw, He. simpl in Hw, He.
  destruct (start_servers_begin_own p servers w serverId config Hnd Hin)
    as (w0 & Hc & Ht & Hown).
  set (t := (start_server_begin p w0 serverId config).2) in *.
  set (ts := (start_servers_begin p w servers).2) in *.
  assert (clients (start_servers_begin p w servers).1 = clients w) as Hc1
    by apply start_servers_begin_clients.
  assert (NoDup (omap task_id (resume_order p ts))) as Hnd'.
  { rewrite resume_order_perm. eapply sublist_NoDup; [exact Hnd|].
    apply start_servers_begin_ids. }
  destruct (task_result p t) as [[s|e]|] eqn:Hres.
  - destruct (task_result_started p t s Hres) as (_ & _ & k & at_ms & Hk & Hr).
    destruct (foldl_resume_lookup_started p (resume_order p ts)
                (start_servers_begin p w servers).1 (mkResults [] []) k at_ms Hnd')
      as (entry & Hl & Hcfg & _); [|done|].
    { rewrite resume_order_perm. by rewrite <- Hk. }
    destruct (start_server_begin_awaiting p w0 serverId config k Hk) as [Hpid Hpc].
    unfold unchanged. simpl. rewrite Hw, <- Hpid, Hl, Hcfg, Hpc.
    by rewrite hasConfigChanged_refl.
  - exfalso. assert (e ∈ response_errors resp1) as Hine.
    { rewrite He. apply elem_of_failures_of. exists t. split; [|done].
      by rewrite resume_order_perm. }
    rewrite Hnoerr in Hine. by apply elem_of_nil in Hine.
  - assert (is_returned t = true) as Hret.
    { destruct t as [| |k]; [done|done|]. simpl in Hres.
      by destruct (race p _ _ _ _). }
    unfold t in Hret. rewrite start_server_begin_returned in Hret.
    rewrite (unchanged_clients w w0) in Hret by done.
    unfold unchanged in Hret |- *. cbn [fst snd] in Hret |- *. rewrite Hw.
    rewrite foldl_resume_lookup_other; [by rewrite Hc1|].
    intros k at_ms Hin' Hid Hr. rewrite resume_order_perm in Hin'.
    assert (TAwaiting k = t) as Heq by (apply Hown; [done|by simpl; f_equal]).
    rewrite <- Heq in Hres. simpl in Hres. by rewrite Hr in Hres.
Qed.

Lemma post_start_repeatable_witness :
  post_start Sample.calm
    (post_start Sample.calm Sample.empty_world
       (Some [("a", Sample.cfg_a); ("c", Sample.cfg_plain)])).1
    (Some [("a", Sample.cfg_a); ("c", Sample.cfg_plain)])
  = ((post_start Sample.calm Sample.empty_world
        (Some [("a", Sample.cfg_a); ("c", Sample.cfg_plain)])).1,
     mkResponse 201 (AllStarted [])).
Proof.
  apply (post_start_repeatable Sample.calm Sample.empty_world _
           [("a", Sample.cfg_a); ("c", Sample.cfg_plain)]
           (post_start Sample.calm Sample.empty_world
              (Some [("a", Sample.cfg_a); ("c", Sample.cfg_plain)])).2).
  - by_compute.
  - by destruct (post_start _ _ _).
  - vm_compute. reflexivity.
Defined.

(** ** Listing the clients *)

Section Listing.

Lemma entries_spec (w : World) (order : list string) :
  (∀ key, key ∈ order → is_Some (clients w !! key)) →
  (entries w order).*1 = order
  ∧ ∀ key e, (key, e) ∈ entries w order ↔ key ∈ order ∧ clients w !! key = Some e.
Proof.
  unfold entries. induction order as [|k order IH]; intros Hall.
  { split; [done|]. intros key e. split; [by intros ?%elem_of_nil|].
    by intros [?%elem_of_nil _]. }
  destruct IH as [Hkeys Hin]; [intros key Hk; apply Hall; by right|].
  destruct (Hall k) as [e0 He0]; [by left|].
  cbn [omap list_omap]. rewrite He0. cbn [fmap option_fmap option_map].
  rewrite fmap_cons. cbn [fst]. split; [by f_equal|].
  intros key e. rewrite !elem_of_cons, Hin. split.
  - intros [[= -> ->]|[? ?]]; auto.
  - intros [[->|?] He]; [left; congruence|by right].
Qed.

Lemma values_NoDup (w : World) (order : list string) :
  registry_ok w → enumerates w order →
  NoDup (client <$> values w order).
Proof.
  intros [Hentries Hdistinct] [Hnd Hkeys].
  destruct (entries_spec w order) as [Hfst Hin]; [intros key Hk; by apply Hkeys|].
  unfold values. rewrite <- list_fmap_compose.
  apply NoDup_fmap_2_strong.
  - intros [k e] [k' e'] [_ He]%Hin [_ He']%Hin Heq. simpl in Heq.
    assert (k = k') as -> by (by eapply Hdistinct). congruence.
  - eapply NoDup_fmap_1. by rewrite Hfst.
Qed.

End Listing.

(** X9. In a state where the invariant of the registry holds, [GET /clients]
    answers 200 with one element for each registered client, in the order of
    the map, and asks each client for its tools once.  The element of a
    client has its id, command, arguments and time of registration; its
    tools are the names that this client lists, and when the listing of this
    client throws they are empty and the message is in [toolError]: the
    other elements are as they would be without the failure. *)
Theorem get_clients_lists_all (listTools : Lister) (w : World) (order : list string) :
  registry_ok w → enumerates w order →
  let out := get_clients listTools w order in
  read_status out.2 = 200
  ∧ NoDup out.1 ∧ length out.1 = length order
  ∧ ∃ items, read_body out.2 = ClientList items
      ∧ (fun d => sum_id (det_summary d)) <$> items = order
      ∧ ∀ key e, clients w !! key = Some e →
          client e ∈ out.1
          ∧ ∃ item, item ∈ items
              ∧ det_summary item = mkSummary key (command e) (args e) (createdAt e)
              ∧ match listTools (client e) with
                | inr result =>
                    det_tools item = tool_name <$> default [] result
                    ∧ det_toolError item = None
                | inl message =>
                    det_tools item = [] ∧ det_toolError item = Some message
                end.
Proof.
  intros Hok Henum out. subst out. unfold get_clients. cbn [fst snd read_status read_body].
  pose proof (values_NoDup w order Hok Henum) as Hnd.
  destruct Hok as [Hentries _]. destruct Henum as [_ Hkeys].
  destruct (entries_spec w order) as [Hfst Hin]; [intros key Hk; by apply Hkeys|].
  split; [done|]. split; [done|]. split.
  { rewrite length_fmap. unfold values. rewrite length_fmap.
    transitivity (length (entries w order).*1); [by rewrite length_fmap|by rewrite Hfst]. }
  eexists. split; [done|]. split.
  - unfold values. rewrite <- !list_fmap_compose.
    transitivity ((entries w order).*1); [|done].
    apply list_fmap_ext. intros i [k e] Hi. simpl.
    assert ((k, e) ∈ entries w order) as [_ He]%Hin by (by eapply list_elem_of_lookup_2).
    unfold describe. destruct (Hentries k e He) as [Hid _].
    by destruct (listTools (client e)).
  - intros key e He.
    assert ((key, e) ∈ entries w order) as Hke.
    { apply Hin. split; [|done]. apply Hkeys. by eexists. }
    assert (e ∈ values w order) as Hv.
    { unfold values. apply list_elem_of_fmap. by exists (key, e). }
    split; [apply list_elem_of_fmap; by exists e|].
    exists (describe listTools e). split; [apply list_elem_of_fmap; by exists e|].
    destruct (Hentries key e He) as [Hid _]. unfold describe, summary.
    destruct (listTools (client e)); simpl; rewrite Hid; done.
Qed.

Lemma get_clients_lists_all_witness :
  let out := get_clients Demo.lister Demo.world_ac ["a"; "c"] in
  read_status out.2 = 200
  ∧ NoDup out.1 ∧ length out.1 = 2
  ∧ ∃ items, read_body out.2 = ClientList items
      ∧ (fun d => sum_id (det_summary d)) <$> items = ["a"; "c"].
Proof.
  intros out.
  assert (registry_ok Demo.world_ac) as Hok.
  { apply (post_start_ok Sample.calm Sample.empty_world (Some Sample.batch)). split.
    - intros key e He. unfold Sample.empty_world in He. simpl in He.
      by rewrite lookup_empty in He.
    - intros key key' e e' He. unfold Sample.empty_world in He. simpl in He.
      by rewrite lookup_empty in He. }
  assert (enumerates Demo.world_ac ["a"; "c"]) as Henum.
  { split; [by_compute|]. intros key. split.
    - intros [->|[->|?%elem_of_nil]%elem_of_cons]%elem_of_cons; [| |done];
        vm_compute; by eexists.
    - intros [e He]. destruct (decide (key = "a")) as [->|Ha]; [by left|].
      destruct (decide (key = "c")) as [->|Hc]; [right; by left|].
      exfalso. revert He.
      assert (clients Demo.world_ac
              = <[ "c" := (default Sample.entry_a (clients Demo.world_ac !! "c")) ]>
                  (<[ "a" := (default Sample.entry_a (clients Demo.world_ac !! "a")) ]> ∅))
        as -> by (vm_compute; reflexivity).
      rewrite !lookup_insert_ne by done. by rewrite lookup_empty. }
  destruct (get_clients_lists_all Demo.lister Demo.world_ac ["a"; "c"] Hok Henum)
    as (Hst & Hnd & Hlen & items & Hbody & Hids & _).
  split; [exact Hst|]. split; [exact Hnd|]. split; [exact Hlen|].
  exists items. split; [exact Hbody|exact Hids].
Defined.

(** ** The shutdown *)




(** ** The port finder *)

Section PortFinding.

Variable pf : Platform.

Lemma try_ports_spec (ports : list Z) : ∀ tried,
  match try_ports pf tried ports with
  | (tried', inr (Some n)) =>
      ∃ pre q post, ports = pre ++ q :: post ∧ n = Num q
        ∧ tried' = tried ++ (Num <$> pre) ++ [Num q]
        ∧ net_listen pf (tried ++ (Num <$> pre)) (Num q) = Listening
  | (tried', inr None) => tried' = tried ++ (Num <$> ports)
  | (tried', inl message) =>
      ∃ pre q post, ports = pre ++ q :: post
        ∧ tried' = tried ++ (Num <$> pre) ++ [Num q]
        ∧ net_listen pf (tried ++ (Num <$> pre)) (Num q) = ListenThrows message
  end.
Proof.
  induction ports as [|q ports IH]; intros tried; simpl.
  { by rewrite app_nil_r. }
  unfold isPortAvailable. destruct (net_listen pf tried (Num q)) as [|msg|msg] eqn:Hq.
  - exists [], q, ports. simpl. by rewrite app_nil_r.
  - specialize (IH (tried ++ [Num q])).
    destruct (try_ports pf (tried ++ [Num q]) ports) as [tried' [m|[n|]]].
    + destruct IH as (pre & r & post & -> & -> & Hr). exists (q :: pre), r, post.
      rewrite fmap_cons. rewrite <- !app_assoc in *. simpl in *. done.
    + destruct IH as (pre & r & post & -> & -> & -> & Hr). exists (q :: pre), r, post.
      rewrite fmap_cons. rewrite <- !app_assoc in *. simpl in *. done.
    + rewrite IH, <- app_assoc. done.
  - exists [], q, ports. simpl. by rewrite app_nil_r.
Qed.

Lemma try_ports_first (pre post : list Z) (q : Z) : ∀ tried,
  (∀ pre1 r pre2, pre = pre1 ++ r :: pre2 →
     ∃ message, net_listen pf (tried ++ (Num <$> pre1)) (Num r) = ErrorEvent message) →
  net_listen pf (tried ++ (Num <$> pre)) (Num q) = Listening →
  try_ports pf tried (pre ++ q :: post)
  = (tried ++ (Num <$> pre) ++ [Num q], inr (Some (Num q))).
Proof.
  induction pre as [|r pre IH]; intros tried Hbusy Hfree; simpl.
  - unfold isPortAvailable. simpl in Hfree. rewrite app_nil_r in Hfree. by rewrite Hfree.
  - unfold isPortAvailable. destruct (Hbusy [] r pre eq_refl) as [message Hr].
    simpl in Hr. rewrite app_nil_r in Hr. rewrite Hr.
    rewrite IH.
    + by rewrite <- !app_assoc.
    + intros pre1 r' pre2 ->. destruct (Hbusy (r :: pre1) r' pre2 eq_refl) as [m Hm].
      exists m. by rewrite <- app_assoc.
    + by rewrite <- app_assoc.
Qed.

End PortFinding.

(** X11. A port that the port finder returns was seen free, unless the
    platform named it: either [PORT] and [RENDER] are both set, nothing was
    tried and the port is the parsed [PORT]; or the port is the last one
    tried, the try found it listening, and it is the parsed [PORT] or one of
    the five ports of the list.  When the finder returns [null], the five
    ports of the list were all tried. *)
Theorem findAvailablePort_sound (pf : Platform) (env : Env) (tried : list JsNumber)
    (found : option JsNumber) :
  PortFinder.findAvailablePort pf env = (tried, inr found) →
  match found with
  | Some n =>
      (falsy (PORT env) = false ∧ falsy (RENDER env) = false ∧ tried = []
       ∧ n = parseInt10 pf (default "" (PORT env)))
      ∨ (∃ before, tried = before ++ [n] ∧ net_listen pf before n = Listening
           ∧ ((falsy (PORT env) = false ∧ n = parseInt10 pf (default "" (PORT env)))
              ∨ ∃ q, q ∈ PORTS ∧ n = Num q))
  | None => ∀ q, q ∈ PORTS → Num q ∈ tried
  end.
Proof.
  unfold PortFinder.findAvailablePort.
  assert (∀ start tried' found',
            try_ports pf start PORTS = (tried', inr found') →
            match found' with
            | Some n => ∃ before, tried' = before ++ [n]
                          ∧ net_listen pf before n = Listening
                          ∧ ∃ q, q ∈ PORTS ∧ n = Num q
            | None => ∀ q, q ∈ PORTS → Num q ∈ tried'
            end) as Htry.
  { intros start tried' found' Heq. pose proof (try_ports_spec pf PORTS start) as H.
    rewrite Heq in H. destruct found' as [n|].
    - destruct H as (pre & q & post & Hports & -> & -> & Hl).
      exists (start ++ (Num <$> pre)). rewrite <- app_assoc. split; [done|].
      split; [done|]. exists q. split; [|done]. rewrite Hports.
      apply elem_of_app. right. by left.
    - intros q Hq. rewrite H. apply elem_of_app. right.
      apply list_elem_of_fmap. by exists q. }
  destruct (falsy (PORT env)) eqn:Hport.
  { intros Heq. specialize (Htry _ _ _ Heq). destruct found as [n|]; [|done].
    right. destruct Htry as (before & ? & ? & ?). exists before. auto. }
  destruct (falsy (RENDER env)) eqn:Hrender.
  - unfold isPortAvailable.
    destruct (net_listen pf [] (parseInt10 pf (default "" (PORT env)))) eqn:Hl.
    + intros [= <- <-]. right. exists []. auto.
    + intros Heq. specialize (Htry _ _ _ Heq). destruct found as [n|]; [|done].
      right. destruct Htry as (before & ? & ? & ?). exists before. auto.
    + done.
  - intros [= <- <-]. left. auto.
Qed.

Lemma findAvailablePort_sound_witness :
  ∃ before, [Num 8080; Num 50880; Num 50881] = before ++ [Num 50881]
    ∧ net_listen Demo.platform before (Num 50881) = Listening.
Proof.
  destruct (findAvailablePort_sound Demo.platform Demo.env_8080
              [Num 8080; Num 50880; Num 50881] (Some (Num 50881)) eq_refl)
    as [(_ & _ & Habs & _)|(before & Htried & Hl & _)]; [discriminate Habs|].
  exists before. split; [exact Htried|exact Hl].
Defined.

(** X12. When [PORT] is not set, both versions of the port finder return the
    first port of the list that is free: the ports before it are tried in
    order and found taken, it is tried and found listening, and no port after
    it is tried. *)
Theorem findAvailablePort_first_free (pf : Platform) (env : Env)
    (pre post : list Z) (q : Z) :
  falsy (PORT env) = true →
  PORTS = pre ++ q :: post →
  (∀ pre1 r pre2, pre = pre1 ++ r :: pre2 →
     ∃ message, net_listen pf (Num <$> pre1) (Num r) = ErrorEvent message) →
  net_listen pf (Num <$> pre) (Num q) = Listening →
  PortFinder.findAvailablePort pf env = ((Num <$> pre) ++ [Num q], inr (Some (Num q)))
  ∧ PortFinderDirect.findAvailablePort pf env
    = ((Num <$> pre) ++ [Num q], inr (Some (Num q))).
Proof.
  intros Hport Hports Hbusy Hfree.
  unfold PortFinder.findAvailablePort, PortFinderDirect.findAvailablePort.
  rewrite Hport, Hports. by rewrite (try_ports_first pf pre post q []).
Qed.

Lemma findAvailablePort_first_free_witness :
  PortFinder.findAvailablePort Demo.platform Demo.env_local
  = ((Num <$> [50880%Z]) ++ [Num 50881], inr (Some (Num 50881)))
  ∧ PortFinderDirect.findAvailablePort Demo.platform Demo.env_local
    = ((Num <$> [50880%Z]) ++ [Num 50881], inr (Some (Num 50881))).
Proof.
  apply (findAvailablePort_first_free Demo.platform Demo.env_local
           [50880%Z] [3000; 8080; 8000]%Z 50881%Z).
  - reflexivity.
  - reflexivity.
  - intros pre1 r pre2 Heq. destruct pre1 as [|? [|]]; [|discriminate Heq..].
    injection Heq as <- _. by eexists.
  - reflexivity.
Defined.

(** ** Start-up *)

(** X13. The start of the server is the same with either version of the port
    finder: the finder is consulted only when [PORT] is not set, where the
    two versions do the same. *)
Theorem start_same_with_either_finder (pf : Platform) (env : Env) :
  Startup.start PortFinder.findAvailablePort pf env
  = Startup.start PortFinderDirect.findAvailablePort pf env.
Proof.
  unfold Startup.start, PortFinder.findAvailablePort, PortFinderDirect.findAvailablePort.
  by destruct (falsy (PORT env)).
Qed.

(** X14. When the start of the server resolves, the server listens on
    0.0.0.0 and its listen raised no error; it is an HTTPS server exactly
    when [CERTFILE] and [KEYFILE] are both set, and then both files were
    read; the port is the string of [PORT], untouched and with no port tried,
    when [PORT] is set, and otherwise a port of the list that was the last
    one tried and was found listening. *)
Theorem start_resolves (pf : Platform) (env : Env) (tried : list JsNumber)
    (b : Startup.Bound) :
  Startup.start PortFinder.findAvailablePort pf env = (tried, inr b) →
  Startup.host b = "0.0.0.0"
  ∧ server_listen pf (Startup.protocol b) (Startup.port b) = None
  ∧ (Startup.protocol b = HTTPS ↔
       falsy (CERTFILE env) = false ∧ falsy (KEYFILE env) = false)
  ∧ (Startup.protocol b = HTTPS →
       (∃ cert, readFileSync pf (default "" (CERTFILE env)) = inr cert)
       ∧ (∃ key, readFileSync pf (default "" (KEYFILE env)) = inr key))
  ∧ match Startup.port b with
    | FromEnv s => PORT env = Some s ∧ s ≠ "" ∧ tried = []
    | Found n =>
        falsy (PORT env) = true
        ∧ ∃ q before, q ∈ PORTS ∧ n = Num q ∧ tried = before ++ [n]
            ∧ net_listen pf before n = Listening
    end.
Proof.
  assert (∀ port b, Startup.listen_on pf env port = inr b →
            Startup.host b = "0.0.0.0" ∧ Startup.port b = port
            ∧ server_listen pf (Startup.protocol b) (Startup.port b) = None
            ∧ (Startup.protocol b = HTTPS ↔
                 falsy (CERTFILE env) = false ∧ falsy (KEYFILE env) = false)
            ∧ (Startup.protocol b = HTTPS →
                 (∃ cert, readFileSync pf (default "" (CERTFILE env)) = inr cert)
                 ∧ (∃ key, readFileSync pf (default "" (KEYFILE env)) = inr key))) as Hlisten.
  { intros port0 b0. unfold Startup.listen_on.
    destruct (falsy (CERTFILE env)), (falsy (KEYFILE env)); simpl.
    1-3: destruct (server_listen pf HTTP port0) eqn:Hs; [done|];
      intros [= Hb]; rewrite <- Hb; simpl; repeat split; try done; intros [??]; done.
    destruct (readFileSync pf (default "" (CERTFILE env))); [done|].
    destruct (readFileSync pf (default "" (KEYFILE env))); [done|].
    destruct (server_listen pf HTTPS port0) eqn:Hs; [done|].
    intros [= Hb]. rewrite <- Hb. simpl. repeat split; try done; by eexists. }
  unfold Startup.start. destruct (falsy (PORT env)) eqn:Hport.
  - destruct (PortFinder.findAvailablePort pf env) as [tried0 [m|found]] eqn:Hf; [done|].
    destruct (Startup.no_port found) eqn:Hno; [done|].
    intros [= <- Hl]. destruct (Hlisten _ _ Hl) as (Hh & Hp & Hs & Hprot & Hfiles).
    split; [done|]. split; [done|]. split; [done|]. split; [done|].
    rewrite Hp. split; [done|].
    destruct found as [n|]; [|done]. simpl.
    revert Hf. unfold PortFinder.findAvailablePort. rewrite Hport. intros Hf.
    pose proof (try_ports_spec pf PORTS []) as Hspec. rewrite Hf in Hspec.
    destruct Hspec as (pre & q & post & Hports & -> & -> & Hq).
    exists q, (Num <$> pre). split; [|done].
    rewrite Hports. apply elem_of_app. right. by left.
  - intros [= <- Hl]. destruct (Hlisten _ _ Hl) as (Hh & Hp & Hs & Hprot & Hfiles).
    split; [done|]. split; [done|]. split; [done|]. split; [done|].
    rewrite Hp. destruct (PORT env) as [s|]; [|done]. simpl in *.
    split; [done|]. split; [|done]. intros ->. done.
Qed.

Lemma start_resolves_witness :
  ∃ q before, q ∈ PORTS ∧ Num 50881 = Num q
    ∧ [Num 50880; Num 50881] = before ++ [Num 50881]
    ∧ net_listen Demo.platform before (Num 50881) = Listening.
Proof.
  destruct (start_resolves Demo.platform Demo.env_tls [Num 50880; Num 50881]
              (Startup.mkBound (Found (Num 50881)) "0.0.0.0" HTTPS) eq_refl)
    as (_ & _ & _ & _ & _ & H).
  exact H.
Defined.

(** X15. When [PORT] is not set and none of the five ports of the list is
    free, the start of the server is rejected with the message that asks for
    [PORT], after the five ports were tried in the order of the list. *)
Theorem start_without_free_port (pf : Platform) (env : Env) :
  falsy (PORT env) = true →
  (∀ tried q, q ∈ PORTS → ∃ message, net_listen pf tried (Num q) = ErrorEvent message) →
  Startup.start PortFinder.findAvailablePort pf env
  = ([Num 50880; Num 50881; Num 3000; Num 8080; Num 8000],
     inl "No available ports found. Please specify a port by using the PORT environment variable.").
Proof.
  intros Hport Hbusy. unfold Startup.start, PortFinder.findAvailablePort. rewrite Hport.
  unfold PORTS in *. simpl. unfold isPortAvailable.
  repeat match goal with
  | |- context [net_listen pf ?t (Num ?q)] =>
      let m := fresh "m" in let H := fresh "H" in
      destruct (Hbusy t q) as [m H]; [by_compute|rewrite H]
  end.
  done.
Qed.

Lemma start_without_free_port_witness :
  Startup.start PortFinder.findAvailablePort Demo.crowded Demo.env_local
  = ([Num 50880; Num 50881; Num 3000; Num 8080; Num 8000],
     inl "No available ports found. Please specify a port by using the PORT environment variable.").
Proof.
  apply (start_without_free_port Demo.crowded Demo.env_local); [reflexivity|].
  intros tried q _. by eexists.
Defined.
